(** * AuthDatabase: a token store over two SQLite tables

    A shallow embedding of [src/auth-database.ts].  The class [AuthDatabase]
    owns one [DatabaseSync] handle and drives it through prepared statements.
    Here the handle is the content of the two tables of [#init], every
    prepared statement is a function on that content, and every method is a
    computation in a small state-and-exception monad that threads the handle
    the way the methods thread [this.#db].

    Conventions of the embedding:
    - a TEXT value is a [string] (its bytes), an INTEGER value is a [Z];
      a number handed to a statement is an integral JavaScript number, and
      the INTEGER column of the STRICT table stores it only when it fits a
      64-bit integer;
    - a value read back from a row is a JavaScript value: an INTEGER beyond
      the safe integers makes the read throw a RangeError, and a TEXT is
      read up to its first NUL character;
    - a table is the list of its rows in rowid order; a scan of [tokens]
      returns the rows in that order, and the rights of a name are read
      through the primary-key index of [rights], in the byte order of the
      [right] column;
    - every statement runs in autocommit mode, as in the source, which never
      opens a transaction: a statement that fails leaves the tables as they
      were before that statement, and the statements before it stay applied;
    - [Date.now()] and [crypto.getRandomValues] are inputs of the methods
      that call them. *)

From Stdlib Require Import String Ascii List ZArith Lia Bool Permutation.
From Stdlib Require Strings.Byte.
Import ListNotations.
Local Open Scope string_scope.
Local Open Scope Z_scope.

(** ** Rows and tables (the schema of [#init]) *)

(** [tokens(name TEXT NOT NULL PRIMARY KEY, expiration INTEGER NOT NULL,
    token TEXT NOT NULL UNIQUE)] *)
Record AuthDatabaseTokensRow : Type := mkTokensRow {
  tr_name : string;
  tr_expiration : Z;
  tr_token : string
}.

(** [rights(name TEXT NOT NULL, right TEXT NOT NULL, PRIMARY KEY (name, right),
    FOREIGN KEY (name) REFERENCES tokens (name) ON DELETE CASCADE)] *)
Record AuthDatabaseRightsRow : Type := mkRightsRow {
  rr_name : string;
  rr_right : string
}.

Record DatabaseSync : Type := mkDb {
  tokens : list AuthDatabaseTokensRow;
  rights : list AuthDatabaseRightsRow
}.

(** [new DatabaseSync(':memory:')] after [#init]: both tables exist and are
    empty. *)
Definition memory_db : DatabaseSync := mkDb [] [].

(** ** Types of the public interface *)

Record AuthDatabaseGenerateTokenOptions : Type := mkOptions {
  opt_name : string;
  opt_expiration : option Z;      (* [expiration?: number] *)
  opt_rights : list string
}.

Record AuthDatabaseToken : Type := mkToken {
  tk_name : string;
  tk_expiration : Z;
  tk_token : string;
  tk_rights : list string
}.

(** [Omit<AuthDatabaseToken, 'token'>]; the object literal of
    [#getTokenRights] has exactly these three properties. *)
Record AuthDatabaseSafeToken : Type := mkSafeToken {
  st_name : string;
  st_expiration : Z;
  st_rights : list string
}.

(** The row of a [SELECT name, expiration FROM tokens ...]: the [token]
    column is not selected, so the row object has no such property. *)
Record NameExpirationRow : Type := mkNameExpirationRow {
  ne_name : string;
  ne_expiration : Z
}.

(** ** Exceptions *)

(** The constraint a failing INSERT reports. *)
Inductive SqliteConstraint : Type :=
| UNIQUE_tokens_name
| UNIQUE_tokens_token
| UNIQUE_rights_name_right
| FOREIGN_KEY
| DATATYPE_tokens_expiration.

(** [RangeError value]: the INTEGER [value] of a row being read is too
    large to be represented as a JavaScript number. *)
Inductive JsError : Type :=
| Error (message : string)
| SqliteError (c : SqliteConstraint)
| RangeError (value : Z).

Definition dquote : string := String "034"%char EmptyString.

(** [`Token "${name}" already exists.`] *)
Definition already_exists_message (name : string) : string :=
  "Token " ++ dquote ++ name ++ dquote ++ " already exists.".

(** [`Token "${name}" does not exist.`] *)
Definition does_not_exist_message (name : string) : string :=
  "Token " ++ dquote ++ name ++ dquote ++ " does not exist.".

(** The failure the specification calls DuplicateNameError. *)
Definition DuplicateNameError (name : string) : JsError :=
  Error (already_exists_message name).

(** The failure the specification calls NotFoundError. *)
Definition NotFoundError (name : string) : JsError :=
  Error (does_not_exist_message name).

(** ** The monad of the methods *)

Inductive Completion (A : Type) : Type :=
| Return (a : A)
| Throw (e : JsError).
Arguments Return {A} a.
Arguments Throw {A} e.

Definition M (A : Type) : Type := DatabaseSync -> DatabaseSync * Completion A.

Definition ret {A} (a : A) : M A := fun db => (db, Return a).

Definition throw {A} (e : JsError) : M A := fun db => (db, Throw e).

Definition bind {A B} (m : M A) (k : A -> M B) : M B :=
  fun db =>
    match m db with
    | (db', Return a) => k a db'
    | (db', Throw e) => (db', Throw e)
    end.

Notation "x <- m ;; k" := (bind m (fun x => k))
  (at level 61, m at next level, right associativity).
Notation "m ;;; k" := (bind m (fun _ => k))
  (at level 61, right associativity).

(** [for (const x of xs) { body(x) }] *)
Fixpoint for_of {A} (xs : list A) (body : A -> M unit) : M unit :=
  match xs with
  | [] => ret tt
  | x :: xs' => body x ;;; for_of xs' body
  end.

(** The state a computation leaves and the completion it ends with. *)
Definition state_after {A} (m : M A) (db : DatabaseSync) : DatabaseSync :=
  fst (m db).
Definition result_of {A} (m : M A) (db : DatabaseSync) : Completion A :=
  snd (m db).

(** ** Values at the boundary of the store *)

(** A number bound to a statement reaches the INTEGER column of the STRICT
    table [tokens] as a 64-bit integer when it lies strictly between the
    two ends of that range; otherwise it stays a REAL and the column refuses
    it. *)
Definition int64_storable (e : Z) : bool :=
  (- 2 ^ 63 <? e) && (e <? 2 ^ 63).

(** An INTEGER read from a row becomes a JavaScript number when it is a
    safe integer. *)
Definition safe_integer (e : Z) : bool :=
  (- (2 ^ 53 - 1) <=? e) && (e <=? 2 ^ 53 - 1).

(** A TEXT read from a row: the characters before the first NUL. *)
Fixpoint cut_at_NUL (s : string) : string :=
  match s with
  | EmptyString => EmptyString
  | String c s' =>
      if Ascii.eqb c "000"%char then EmptyString else String c (cut_at_NUL s')
  end.

Fixpoint has_no_NUL (s : string) : bool :=
  match s with
  | EmptyString => true
  | String c s' => negb (Ascii.eqb c "000"%char) && has_no_NUL s'
  end.

(** The order of the primary-key index of [rights] within one name: the
    [right] values by their bytes. *)
Fixpoint index_insert (x : string) (l : list string) : list string :=
  match l with
  | [] => [x]
  | y :: l' => if String.leb x y then x :: l else y :: index_insert x l'
  end.

Fixpoint index_order (l : list string) : list string :=
  match l with
  | [] => []
  | x :: l' => index_insert x (index_order l')
  end.

(** ** The prepared statements *)

Definition rights_row_eqb (a b : AuthDatabaseRightsRow) : bool :=
  (rr_name a =? rr_name b)%string && (rr_right a =? rr_right b)%string.

(** [INSERT INTO tokens (name, expiration, token) VALUES (?, ?, ?)];
    [.run] returns the number of rows changed.  The unique indexes are
    probed first ([token], then [name]); the type of the STRICT column is
    checked when the row itself is built. *)
Definition insertTokenStatement_run (name : string) (expiration : Z)
    (token : string) : M Z :=
  fun db =>
    if existsb (fun t => (tr_token t =? token)%string) (tokens db) then
      (db, Throw (SqliteError UNIQUE_tokens_token))
    else if existsb (fun t => (tr_name t =? name)%string) (tokens db) then
      (db, Throw (SqliteError UNIQUE_tokens_name))
    else if negb (int64_storable expiration) then
      (db, Throw (SqliteError DATATYPE_tokens_expiration))
    else
      (mkDb (tokens db ++ [mkTokensRow name expiration token]) (rights db),
       Return 1).

(** [INSERT INTO rights (name, right) VALUES (?, ?)], with foreign keys
    enforced. *)
Definition insertRightStatement_run (name right : string) : M Z :=
  fun db =>
    if existsb (rights_row_eqb (mkRightsRow name right)) (rights db) then
      (db, Throw (SqliteError UNIQUE_rights_name_right))
    else if negb (existsb (fun t => (tr_name t =? name)%string) (tokens db)) then
      (db, Throw (SqliteError FOREIGN_KEY))
    else
      (mkDb (tokens db) (rights db ++ [mkRightsRow name right]), Return 1).

(** The rows of [rights] that ON DELETE CASCADE removes together with the
    parent rows [deleted]. *)
Definition cascaded (deleted : list AuthDatabaseTokensRow)
    (r : AuthDatabaseRightsRow) : bool :=
  existsb (fun t => (tr_name t =? rr_name r)%string) deleted.

(** [DELETE FROM tokens WHERE name = ?]; the count returned is that of the
    rows of [tokens] the statement removed itself: rows removed by the
    foreign key action are not counted. *)
Definition deleteTokenFromNameStatement_run (name : string) : M Z :=
  fun db =>
    let deleted := filter (fun t => (tr_name t =? name)%string) (tokens db) in
    (mkDb (filter (fun t => negb (tr_name t =? name)%string) (tokens db))
          (filter (fun r => negb (cascaded deleted r)) (rights db)),
     Return (Z.of_nat (length deleted))).

(** [SELECT name FROM tokens WHERE name = ?]; [.get] returns the first row
    or [undefined]. *)
Definition selectTokenFromNameStatement_get (name : string)
  : M (option string) :=
  fun db =>
    (db, Return (option_map (fun t => cut_at_NUL (tr_name t))
                   (find (fun t => (tr_name t =? name)%string) (tokens db)))).

(** [SELECT name, expiration FROM tokens WHERE name = ?] (prepared inside
    [getOptionalToken]). *)
Definition selectNameExpirationFromName_get (name : string)
  : M (option NameExpirationRow) :=
  fun db =>
    match find (fun t => (tr_name t =? name)%string) (tokens db) with
    | None => (db, Return None)
    | Some t =>
        if safe_integer (tr_expiration t) then
          (db, Return (Some (mkNameExpirationRow (cut_at_NUL (tr_name t))
                                                 (tr_expiration t))))
        else (db, Throw (RangeError (tr_expiration t)))
    end.

(** [SELECT name, expiration FROM tokens]; [.all] reads every row, and
    throws at the first one it cannot read. *)
Definition selectAllTokensStatement_all : M (list NameExpirationRow) :=
  fun db =>
    match find (fun t => negb (safe_integer (tr_expiration t))) (tokens db) with
    | Some t => (db, Throw (RangeError (tr_expiration t)))
    | None =>
        (db, Return (map (fun t => mkNameExpirationRow (cut_at_NUL (tr_name t))
                                                       (tr_expiration t))
                         (tokens db)))
    end.

(** [SELECT right FROM rights WHERE name = ?]: the rows of the name, in
    the order of the primary-key index. *)
Definition selectRightsFromNameStatement_all (name : string)
  : M (list string) :=
  fun db =>
    (db, Return
       (map cut_at_NUL
          (index_order
             (map rr_right
                (filter (fun r => (rr_name r =? name)%string) (rights db)))))).

(** [SELECT name FROM tokens WHERE token = ? AND (expiration > ? OR
    expiration = 0)] *)
Definition selectNotExpiredTokenFromTokenAndExpirationStatement_get
    (token : string) (now : Z) : M (option string) :=
  fun db =>
    (db, Return (option_map (fun t => cut_at_NUL (tr_name t))
                   (find (fun t => (tr_token t =? token)%string
                                   && ((tr_expiration t >? now)
                                       || (tr_expiration t =? 0)))
                         (tokens db)))).

(** [SELECT name FROM rights WHERE name = (SELECT name FROM tokens WHERE
    token = ?) AND right = ?].  The scalar subquery is the first row's name,
    or NULL when no row matches; [name = NULL] holds of no row. *)
Definition selectTokenFromTokenAndRightStatement_get
    (token right : string) : M (option string) :=
  fun db =>
    (db, Return
       match option_map tr_name
               (find (fun t => (tr_token t =? token)%string) (tokens db)) with
       | None => None
       | Some n =>
           option_map (fun r => cut_at_NUL (rr_name r))
             (find (fun r => (rr_name r =? n)%string
                             && (rr_right r =? right)%string)
                   (rights db))
       end).

(** ** The outside world: random bytes, hexadecimal rendering, the clock *)

(** [crypto.getRandomValues(new Uint8Array(len))]: the array is filled with
    the bytes the random source delivers for this call, [entropy i] being
    the byte at index [i]. *)
Definition getRandomValues (entropy : nat -> Byte.byte) (len : nat)
  : list Byte.byte :=
  map entropy (seq 0 len).

Definition hex_digit (n : nat) : ascii :=
  match n with
  | 0%nat => "0" | 1%nat => "1" | 2%nat => "2" | 3%nat => "3"
  | 4%nat => "4" | 5%nat => "5" | 6%nat => "6" | 7%nat => "7"
  | 8%nat => "8" | 9%nat => "9" | 10%nat => "a" | 11%nat => "b"
  | 12%nat => "c" | 13%nat => "d" | 14%nat => "e" | _ => "f"
  end%char.

Definition byte_to_hex (b : Byte.byte) : string :=
  let n := Byte.to_nat b in
  String (hex_digit (n / 16)%nat)
    (String (hex_digit (n mod 16)%nat) EmptyString).

(** [uint8ArrayToHex] of the package [@xstd/hex]: every byte becomes its two
    lowercase hexadecimal digits, high digit first. *)
Fixpoint uint8ArrayToHex (bytes : list Byte.byte) : string :=
  match bytes with
  | [] => EmptyString
  | b :: bs => byte_to_hex b ++ uint8ArrayToHex bs
  end.

Definition is_hex_digit (c : ascii) : bool :=
  existsb (Ascii.eqb c) (map hex_digit (seq 0 16)).

Fixpoint all_hex (s : string) : bool :=
  match s with
  | EmptyString => true
  | String c s' => is_hex_digit c && all_hex s'
  end.

(** The value of a hexadecimal digit, and the reading back of a rendering. *)
Definition hex_value (c : ascii) : option nat :=
  find (fun n => Ascii.eqb (hex_digit n) c) (seq 0 16).

Fixpoint hexToUint8Array (s : string) : option (list Byte.byte) :=
  match s with
  | EmptyString => Some []
  | String hi (String lo s') =>
      match hex_value hi, hex_value lo, hexToUint8Array s' with
      | Some h, Some l, Some bs =>
          option_map (fun b => b :: bs) (Byte.of_nat (16 * h + l))
      | _, _, _ => None
      end
  | String _ EmptyString => None
  end.

(** [x !== undefined] *)
Definition defined {A} (x : option A) : bool :=
  match x with Some _ => true | None => false end.

(** ** The methods of [AuthDatabase] *)

(** [.map(f)] with a callback that reads the store. *)
Fixpoint map_M {A B} (f : A -> M B) (xs : list A) : M (list B) :=
  match xs with
  | [] => ret []
  | x :: xs' => y <- f x ;; ys <- map_M f xs' ;; ret (y :: ys)
  end.

Definition getTokenRights (row : NameExpirationRow) : M AuthDatabaseSafeToken :=
  rightsRows <- selectRightsFromNameStatement_all (ne_name row) ;;
  ret (mkSafeToken (ne_name row) (ne_expiration row)
                   (map (fun right => right) rightsRows)).

Definition hasToken (name : string) : M bool :=
  row <- selectTokenFromNameStatement_get name ;;
  ret (defined row).

Definition generateToken (options : AuthDatabaseGenerateTokenOptions)
    (entropy : nat -> Byte.byte) : M AuthDatabaseToken :=
  let name := opt_name options in
  let expiration :=
    match opt_expiration options with Some e => e | None => 0 end in
  let rights := opt_rights options in
  exists_ <- hasToken name ;;
  if exists_ : bool then throw (Error (already_exists_message name))
  else
    let token := "auth-" ++ uint8ArrayToHex (getRandomValues entropy 32) in
    insertTokenStatement_run name expiration token ;;;
    for_of rights (fun right => insertRightStatement_run name right ;;; ret tt) ;;;
    ret (mkToken name expiration token rights).

Definition getOptionalToken (name : string) : M (option AuthDatabaseSafeToken) :=
  tokensRow <- selectNameExpirationFromName_get name ;;
  match tokensRow with
  | None => ret None
  | Some row => token <- getTokenRights row ;; ret (Some token)
  end.

Definition getToken (name : string) : M AuthDatabaseSafeToken :=
  token <- getOptionalToken name ;;
  match token with
  | None => throw (Error (does_not_exist_message name))
  | Some t => ret t
  end.

Definition deleteToken (name : string) : M bool :=
  changes <- deleteTokenFromNameStatement_run name ;;
  ret (changes >? 0).

Definition listTokens : M (list AuthDatabaseSafeToken) :=
  rows <- selectAllTokensStatement_all ;;
  map_M getTokenRights rows.

(** [Math.floor(Date.now() / 1000)], [now_ms] being what [Date.now()]
    returns (whole milliseconds). *)
Definition unix_seconds (now_ms : Z) : Z := now_ms / 1000.

Definition verifyTokenValidity (token : string) (now_ms : Z) : M bool :=
  row <- selectNotExpiredTokenFromTokenAndExpirationStatement_get
           token (unix_seconds now_ms) ;;
  ret (defined row).

Definition verifyTokenRight (token right : string) : M bool :=
  row <- selectTokenFromTokenAndRightStatement_get token right ;;
  ret (defined row).

(** ** Names for parts of [generateToken] *)

(** The [expiration] a call stores ([expiration = 0] when absent). *)
Definition expiration_of (options : AuthDatabaseGenerateTokenOptions) : Z :=
  match opt_expiration options with Some e => e | None => 0 end.

(** The secret a call draws from the random source. *)
Definition secret_of (entropy : nat -> Byte.byte) : string :=
  "auth-" ++ uint8ArrayToHex (getRandomValues entropy 32).

(** The rows a call inserts. *)
Definition token_row (options : AuthDatabaseGenerateTokenOptions)
    (entropy : nat -> Byte.byte) : AuthDatabaseTokensRow :=
  mkTokensRow (opt_name options) (expiration_of options) (secret_of entropy).

Definition rights_rows (name : string) (rs : list string)
  : list AuthDatabaseRightsRow :=
  map (mkRightsRow name) rs.

(** ** The constraints of the schema *)

Record db_ok (db : DatabaseSync) : Prop := mk_db_ok {
  (* tokens.name PRIMARY KEY *)
  ok_names : NoDup (map tr_name (tokens db));
  (* tokens.token UNIQUE *)
  ok_secrets : NoDup (map tr_token (tokens db));
  (* rights PRIMARY KEY (name, right) *)
  ok_rights : NoDup (rights db);
  (* rights.name REFERENCES tokens (name) *)
  ok_foreign :
    forall r, In r (rights db) -> In (rr_name r) (map tr_name (tokens db))
}.

Fixpoint distinct {A} (eqb : A -> A -> bool) (l : list A) : bool :=
  match l with
  | [] => true
  | x :: l' => negb (existsb (eqb x) l') && distinct eqb l'
  end.

(** The same constraints as a check that computes. *)
Definition db_okb (db : DatabaseSync) : bool :=
  distinct String.eqb (map tr_name (tokens db))
  && distinct String.eqb (map tr_token (tokens db))
  && distinct rights_row_eqb (rights db)
  && forallb (fun r => existsb (String.eqb (rr_name r))
                               (map tr_name (tokens db)))
             (rights db).

(** ** The states a store goes through *)

(** A store starts empty and changes only through the public methods; a
    call that throws leaves the state it had reached. *)
Inductive reachable : DatabaseSync -> Prop :=
| reach_new : reachable memory_db
| reach_generateToken db options entropy :
    reachable db -> reachable (state_after (generateToken options entropy) db)
| reach_deleteToken db name :
    reachable db -> reachable (state_after (deleteToken name) db)
| reach_hasToken db name :
    reachable db -> reachable (state_after (hasToken name) db)
| reach_getToken db name :
    reachable db -> reachable (state_after (getToken name) db)
| reach_getOptionalToken db name :
    reachable db -> reachable (state_after (getOptionalToken name) db)
| reach_listTokens db :
    reachable db -> reachable (state_after listTokens db)
| reach_verifyTokenValidity db token now_ms :
    reachable db -> reachable (state_after (verifyTokenValidity token now_ms) db)
| reach_verifyTokenRight db token right :
    reachable db -> reachable (state_after (verifyTokenRight token right) db).

(** ** Stores that differ in one column of [tokens] *)

Definition with_expirations (f : AuthDatabaseTokensRow -> Z)
    (db : DatabaseSync) : DatabaseSync :=
  mkDb (map (fun t => mkTokensRow (tr_name t) (f t) (tr_token t)) (tokens db))
       (rights db).

Definition with_secrets (g : AuthDatabaseTokensRow -> string)
    (db : DatabaseSync) : DatabaseSync :=
  mkDb (map (fun t => mkTokensRow (tr_name t) (tr_expiration t) (g t))
            (tokens db))
       (rights db).

(** A record is expired at [now_ms] when its expiration is not the
    sentinel 0 and is not after the current second. *)
Definition expired (t : AuthDatabaseTokensRow) (now_ms : Z) : Prop :=
  tr_expiration t <> 0 /\ tr_expiration t <= unix_seconds now_ms.

(** ** The safe view of a record *)

(** The right-set of a name: the [right] column of its rows of [rights]. *)
Definition rights_of (name : string) (db : DatabaseSync) : list string :=
  map rr_right (filter (fun r => (rr_name r =? name)%string) (rights db)).

(** The rights of a name as a lookup reads them: in index order, each cut
    at its first NUL. *)
Definition read_rights (name : string) (db : DatabaseSync) : list string :=
  map cut_at_NUL (index_order (rights_of name db)).

(** What the lookups return for the row [t] of [tokens] when they can read
    it: the name as read back, and the rights stored under that name. *)
Definition safe_token (db : DatabaseSync) (t : AuthDatabaseTokensRow)
  : AuthDatabaseSafeToken :=
  mkSafeToken (cut_at_NUL (tr_name t)) (tr_expiration t)
              (read_rights (cut_at_NUL (tr_name t)) db).

(** ** Records that read back as stored *)

Definition row_readable (t : AuthDatabaseTokensRow) : bool :=
  has_no_NUL (tr_name t) && safe_integer (tr_expiration t).

(** Every name and right without NUL, every expiration a safe integer. *)
Definition db_readable (db : DatabaseSync) : bool :=
  forallb row_readable (tokens db)
  && forallb (fun r => has_no_NUL (rr_right r)) (rights db).

Definition options_readable (options : AuthDatabaseGenerateTokenOptions)
  : bool :=
  has_no_NUL (opt_name options)
  && safe_integer (expiration_of options)
  && forallb has_no_NUL (opt_rights options).

(** Everything in the store except the [token] column. *)
Definition safe_view (db : DatabaseSync)
  : list (string * Z) * list AuthDatabaseRightsRow :=
  (map (fun t => (tr_name t, tr_expiration t)) (tokens db), rights db).

(** ** Creation as one unit *)

(** The all-or-nothing reading of [generateToken]: a call that throws leaves
    the store as it found it. *)
Definition generateToken_all_or_nothing : Prop :=
  forall db options entropy e,
    db_ok db ->
    result_of (generateToken options entropy) db = Throw e ->
    state_after (generateToken options entropy) db = db.

(** ** The format of a secret *)

(** The string auth- followed by 64 hexadecimal digits. *)
Definition secret_format (s : string) : Prop :=
  exists hex,
    s = "auth-" ++ hex /\ String.length hex = 64%nat /\ all_hex hex = true.

(** ** Inputs used in the examples *)

Definition entropy0 : nat -> Byte.byte := fun _ => Byte.x00.
Definition entropy1 : nat -> Byte.byte := fun _ => Byte.xff.

Definition secret0 : string :=
  "auth-0000000000000000000000000000000000000000000000000000000000000000".

Definition test_options : AuthDatabaseGenerateTokenOptions :=
  mkOptions "test" None ["read"].

Definition test_db : DatabaseSync :=
  state_after (generateToken test_options entropy0) memory_db.

(** A call that repeats a right. *)
Definition repeated_options : AuthDatabaseGenerateTokenOptions :=
  mkOptions "test" None ["read"; "read"].

(** A record that expired one minute after the epoch. *)
Definition expired_options : AuthDatabaseGenerateTokenOptions :=
  mkOptions "old" (Some 60) ["read"; "write"].

Definition expired_db : DatabaseSync :=
  state_after (generateToken expired_options entropy0) memory_db.

(** A call with an empty name and a negative expiration. *)
Definition unvalidated_options : AuthDatabaseGenerateTokenOptions :=
  mkOptions "" (Some (-5)) ["read"].

(** 2026-11-03T00:00:00Z, in milliseconds. *)
Definition sample_now_ms : Z := 1793664000000.

(** An expiration one past the largest safe integer, and its opposite. *)
Definition unsafe_options : AuthDatabaseGenerateTokenOptions :=
  mkOptions "big" (Some (2 ^ 53)) ["read"].

Definition negative_unsafe_options : AuthDatabaseGenerateTokenOptions :=
  mkOptions "past" (Some (- 2 ^ 53)) ["read"].

(** An expiration that is no 64-bit integer. *)
Definition overflow_options : AuthDatabaseGenerateTokenOptions :=
  mkOptions "far" (Some (2 ^ 63)) ["read"].

(** A name with a NUL character in it: a, NUL, b. *)
Definition nul_name : string :=
  String "a"%char (String "000"%char (String "b"%char EmptyString)).

Definition nul_options : AuthDatabaseGenerateTokenOptions :=
  mkOptions nul_name (Some 60) ["read"].

(** Rights given out of byte order. *)
Definition unsorted_options : AuthDatabaseGenerateTokenOptions :=
  mkOptions "svc" None ["write"; "read"].

(** ** The tests of the repository, run on the embedding *)

Example test_generate_name :
  option_map tk_name
    (match result_of (generateToken test_options entropy0) memory_db with
     | Return t => Some t | Throw _ => None end) = Some "test".
Proof. reflexivity. Qed.

Example test_generate_duplicate :
  result_of (generateToken test_options entropy0) test_db
  = Throw (DuplicateNameError "test").
Proof. reflexivity. Qed.

Example test_hasToken :
  result_of (hasToken "test") test_db = Return true
  /\ result_of (hasToken "test") memory_db = Return false.
Proof. split; reflexivity. Qed.

Example test_getToken :
  result_of (getToken "test") test_db = Return (mkSafeToken "test" 0 ["read"])
  /\ result_of (getToken "test") memory_db = Throw (NotFoundError "test").
Proof. split; reflexivity. Qed.

Example test_deleteToken :
  result_of (deleteToken "test") memory_db = Return false
  /\ result_of (deleteToken "test") test_db = Return true
  /\ result_of (hasToken "test") (state_after (deleteToken "test") test_db)
     = Return false.
Proof. repeat split; reflexivity. Qed.

Example test_listTokens :
  result_of listTokens memory_db = Return []
  /\ result_of listTokens test_db = Return [mkSafeToken "test" 0 ["read"]].
Proof. split; reflexivity. Qed.

Example test_verifyTokenValidity :
  result_of (verifyTokenValidity secret0 sample_now_ms) test_db = Return true
  /\ result_of (verifyTokenValidity secret0 sample_now_ms)
       (state_after
          (generateToken
             (mkOptions "test" (Some (unix_seconds sample_now_ms + 60)) ["read"])
             entropy0) memory_db)
     = Return true
  /\ result_of (verifyTokenValidity secret0 sample_now_ms)
       (state_after
          (generateToken
             (mkOptions "test" (Some (unix_seconds sample_now_ms - 60)) ["read"])
             entropy0) memory_db)
     = Return false
  /\ result_of (verifyTokenValidity "invalid" sample_now_ms) memory_db
     = Return false.
Proof. repeat split; vm_compute; reflexivity. Qed.

Example test_verifyTokenRight :
  result_of (verifyTokenRight secret0 "read") test_db = Return true
  /\ result_of (verifyTokenRight secret0 "write") test_db = Return false
  /\ result_of (verifyTokenRight "invalid" "read") memory_db = Return false.
Proof. repeat split; reflexivity. Qed.

Example test_secret0 : secret_of entropy0 = secret0.
Proof. reflexivity. Qed.

(** * Proofs *)

(** ** Lists, keys and the boolean checks *)

Lemma rights_row_eqb_eq (a b : AuthDatabaseRightsRow) :
  rights_row_eqb a b = true <-> a = b.
Proof.
  unfold rights_row_eqb. rewrite andb_true_iff, !String.eqb_eq.
  destruct a, b; simpl. split.
  - intros [-> ->]. reflexivity.
  - intros H. inversion H. split; reflexivity.
Qed.

Lemma existsb_name_In (name : string) (l : list AuthDatabaseTokensRow) :
  existsb (fun t => (tr_name t =? name)%string) l = true
  <-> In name (map tr_name l).
Proof.
  rewrite existsb_exists, in_map_iff.
  split; intros [t [H1 H2]]; exists t.
  - apply String.eqb_eq in H2. auto.
  - split; [assumption | apply String.eqb_eq; assumption].
Qed.

Lemma existsb_token_In (token : string) (l : list AuthDatabaseTokensRow) :
  existsb (fun t => (tr_token t =? token)%string) l = true
  <-> In token (map tr_token l).
Proof.
  rewrite existsb_exists, in_map_iff.
  split; intros [t [H1 H2]]; exists t.
  - apply String.eqb_eq in H2. auto.
  - split; [assumption | apply String.eqb_eq; assumption].
Qed.

Lemma existsb_row_In (r : AuthDatabaseRightsRow) (l : list AuthDatabaseRightsRow) :
  existsb (rights_row_eqb r) l = true <-> In r l.
Proof.
  rewrite existsb_exists. split.
  - intros [x [Hin Heq]]. apply rights_row_eqb_eq in Heq. subst. assumption.
  - intros Hin. exists r. split; [assumption | apply rights_row_eqb_eq; reflexivity].
Qed.

Lemma existsb_false_iff {A} (p : A -> bool) (l : list A) (P : Prop) :
  (existsb p l = true <-> P) -> (existsb p l = false <-> ~ P).
Proof.
  intros H. destruct (existsb p l); split; intros; try congruence.
  - exfalso. apply H0, H. reflexivity.
  - intros HP. apply H in HP. discriminate.
Qed.

Lemma distinct_NoDup {A} (eqb : A -> A -> bool)
    (eqb_eq : forall x y, eqb x y = true <-> x = y) (l : list A) :
  distinct eqb l = true -> NoDup l.
Proof.
  induction l as [|x l IH]; simpl; intros H.
  - constructor.
  - apply andb_true_iff in H. destruct H as [Hx Hl].
    constructor; [| auto].
    intros Hin. apply negb_true_iff in Hx.
    assert (E : existsb (eqb x) l = true).
    { apply existsb_exists. exists x. split; [assumption | apply eqb_eq; reflexivity]. }
    congruence.
Qed.

Lemma db_okb_sound (db : DatabaseSync) : db_okb db = true -> db_ok db.
Proof.
  unfold db_okb. rewrite !andb_true_iff. intros [[[Hn Hs] Hr] Hf].
  constructor.
  - apply (distinct_NoDup String.eqb String.eqb_eq). assumption.
  - apply (distinct_NoDup String.eqb String.eqb_eq). assumption.
  - apply (distinct_NoDup rights_row_eqb rights_row_eqb_eq). assumption.
  - intros r Hin. rewrite forallb_forall in Hf. specialize (Hf r Hin).
    apply existsb_exists in Hf. destruct Hf as [n [Hn' He]].
    apply String.eqb_eq in He. subst. assumption.
Qed.

(** A concrete store satisfies the schema when the check evaluates to
    [true]; a concrete record is expired when the two comparisons evaluate. *)
Ltac schema_ok := apply db_okb_sound; reflexivity.
Ltac expired_now :=
  unfold expired, unix_seconds; simpl; split; [lia | vm_compute; discriminate].

Lemma NoDup_snoc {A} (l : list A) (x : A) :
  NoDup l -> ~ In x l -> NoDup (l ++ [x]).
Proof.
  intros Hl Hx. apply (Permutation_NoDup (Permutation_cons_append l x)).
  constructor; assumption.
Qed.

Lemma NoDup_keys_filter {A B} (key : A -> B) (keep : A -> bool) (rows : list A) :
  NoDup (map key rows) -> NoDup (map key (filter keep rows)).
Proof.
  induction rows as [|x rows IH]; simpl; intros H.
  - constructor.
  - inversion H as [|? ? Hx Hl]; subst. destruct (keep x); simpl.
    + constructor; [| auto]. intros Hin. apply Hx.
      apply in_map_iff in Hin. destruct Hin as [y [Hy Hin]].
      apply filter_In in Hin. apply in_map_iff. exists y. tauto.
    + auto.
Qed.

(** In a list without repeated keys, the first row with a key is the only
    one. *)
Lemma find_unique {A} (key : A -> string) (l : list A) (x : A) :
  NoDup (map key l) -> In x l ->
  find (fun y => (key y =? key x)%string) l = Some x.
Proof.
  induction l as [|y l IH]; simpl; intros Hnd Hin; [contradiction|].
  inversion Hnd as [|? ? Hy Hl]; subst.
  destruct Hin as [-> | Hin].
  - rewrite String.eqb_refl. reflexivity.
  - destruct (String.eqb_spec (key y) (key x)) as [E|E].
    + exfalso. apply Hy. rewrite E. apply in_map. assumption.
    + auto.
Qed.

Lemma find_absent {A} (p : A -> bool) (l : list A) :
  (forall x, In x l -> p x = false) -> find p l = None.
Proof.
  induction l as [|y l IH]; simpl; intros H; [reflexivity|].
  rewrite (H y (or_introl eq_refl)). apply IH. intros x Hx. apply H. right. assumption.
Qed.

Lemma defined_find_existsb {A B} (f : A -> B) (p : A -> bool) (l : list A) :
  defined (option_map f (find p l)) = existsb p l.
Proof.
  induction l as [|x l IH]; simpl; [reflexivity|].
  destruct (p x); simpl; [reflexivity | assumption].
Qed.

(** ** What each method computes *)

Lemma hasToken_eq (name : string) (db : DatabaseSync) :
  hasToken name db
  = (db, Return (existsb (fun t => (tr_name t =? name)%string) (tokens db))).
Proof.
  cbv [hasToken bind selectTokenFromNameStatement_get ret].
  rewrite defined_find_existsb. reflexivity.
Qed.

Lemma getTokenRights_eq (row : NameExpirationRow) (db : DatabaseSync) :
  getTokenRights row db
  = (db, Return (mkSafeToken (ne_name row) (ne_expiration row)
                             (read_rights (ne_name row) db))).
Proof.
  cbv [getTokenRights bind selectRightsFromNameStatement_all ret].
  rewrite map_id. reflexivity.
Qed.

Lemma getOptionalToken_eq (name : string) (db : DatabaseSync) :
  getOptionalToken name db
  = (db, match find (fun t => (tr_name t =? name)%string) (tokens db) with
         | None => Return None
         | Some t =>
             if safe_integer (tr_expiration t) then Return (Some (safe_token db t))
             else Throw (RangeError (tr_expiration t))
         end).
Proof.
  unfold getOptionalToken, bind at 1, selectNameExpirationFromName_get.
  destruct (find _ (tokens db)) as [t|]; [| reflexivity].
  destruct (safe_integer (tr_expiration t)); [| reflexivity].
  unfold bind. rewrite getTokenRights_eq. reflexivity.
Qed.

Lemma getToken_eq (name : string) (db : DatabaseSync) :
  getToken name db
  = (db, match find (fun t => (tr_name t =? name)%string) (tokens db) with
         | Some t =>
             if safe_integer (tr_expiration t) then Return (safe_token db t)
             else Throw (RangeError (tr_expiration t))
         | None => Throw (NotFoundError name)
         end).
Proof.
  unfold getToken, bind. rewrite getOptionalToken_eq.
  destruct (find _ (tokens db)) as [t|]; [| reflexivity].
  destruct (safe_integer (tr_expiration t)); reflexivity.
Qed.

Lemma map_M_getTokenRights (rows : list NameExpirationRow) (db : DatabaseSync) :
  map_M getTokenRights rows db
  = (db, Return (map (fun row => mkSafeToken (ne_name row) (ne_expiration row)
                                   (read_rights (ne_name row) db)) rows)).
Proof.
  induction rows as [|row rows IH]; simpl; [reflexivity|].
  unfold bind. rewrite getTokenRights_eq, IH. reflexivity.
Qed.

Lemma listTokens_eq (db : DatabaseSync) :
  listTokens db
  = (db, match find (fun t => negb (safe_integer (tr_expiration t)))
                 (tokens db) with
         | Some t => Throw (RangeError (tr_expiration t))
         | None => Return (map (safe_token db) (tokens db))
         end).
Proof.
  unfold listTokens, bind, selectAllTokensStatement_all.
  destruct (find _ (tokens db)); [reflexivity|].
  rewrite map_M_getTokenRights, map_map. reflexivity.
Qed.

Lemma verifyTokenValidity_eq (token : string) (now_ms : Z) (db : DatabaseSync) :
  verifyTokenValidity token now_ms db
  = (db, Return (existsb (fun t => (tr_token t =? token)%string
                                   && ((tr_expiration t >? unix_seconds now_ms)
                                       || (tr_expiration t =? 0)))
                         (tokens db))).
Proof.
  cbv [verifyTokenValidity bind
       selectNotExpiredTokenFromTokenAndExpirationStatement_get ret].
  rewrite defined_find_existsb. reflexivity.
Qed.

Lemma verifyTokenRight_eq (token right : string) (db : DatabaseSync) :
  verifyTokenRight token right db
  = (db, Return
       match find (fun t => (tr_token t =? token)%string) (tokens db) with
       | None => false
       | Some t => existsb (rights_row_eqb (mkRightsRow (tr_name t) right))
                           (rights db)
       end).
Proof.
  cbv [verifyTokenRight bind selectTokenFromTokenAndRightStatement_get ret].
  destruct (find _ (tokens db)) as [t|]; simpl; [| reflexivity].
  rewrite defined_find_existsb. do 2 f_equal.
  induction (rights db) as [|r l IH]; simpl; [reflexivity|].
  rewrite IH. f_equal. unfold rights_row_eqb. simpl.
  rewrite (String.eqb_sym (rr_name r)), (String.eqb_sym (rr_right r)).
  reflexivity.
Qed.

Lemma deleteToken_eq (name : string) (db : DatabaseSync) :
  deleteToken name db
  = (mkDb (filter (fun t => negb (tr_name t =? name)%string) (tokens db))
          (filter (fun r => negb (cascaded
                      (filter (fun t => (tr_name t =? name)%string) (tokens db)) r))
                  (rights db)),
     Return (Z.of_nat (length
               (filter (fun t => (tr_name t =? name)%string) (tokens db))) >? 0)).
Proof. reflexivity. Qed.

(** ** The insertions of [generateToken] *)

Lemma insertRight_step (name r : string) (d : DatabaseSync) :
  (insertRightStatement_run name r ;;; ret tt) d
  = if existsb (rights_row_eqb (mkRightsRow name r)) (rights d) then
      (d, Throw (SqliteError UNIQUE_rights_name_right))
    else if negb (existsb (fun t => (tr_name t =? name)%string) (tokens d)) then
      (d, Throw (SqliteError FOREIGN_KEY))
    else (mkDb (tokens d) (rights d ++ [mkRightsRow name r]), Return tt).
Proof.
  unfold bind, insertRightStatement_run.
  destruct (existsb (rights_row_eqb _) _); [reflexivity|].
  destruct (negb _); reflexivity.
Qed.

Lemma for_of_app {A} (xs ys : list A) (body : A -> M unit) (d : DatabaseSync) :
  for_of (xs ++ ys) body d = (for_of xs body ;;; for_of ys body) d.
Proof.
  revert d. induction xs as [|x xs IH]; intros d; simpl; [reflexivity|].
  unfold bind. destruct (body x d) as [d1 [[]|e]]; [| reflexivity].
  rewrite IH. reflexivity.
Qed.

Lemma for_of_rights_ok (name : string) (rs : list string) (d : DatabaseSync) :
  In name (map tr_name (tokens d)) ->
  NoDup rs ->
  (forall r, In r rs -> ~ In (mkRightsRow name r) (rights d)) ->
  for_of rs (fun right => insertRightStatement_run name right ;;; ret tt) d
  = (mkDb (tokens d) (rights d ++ rights_rows name rs), Return tt).
Proof.
  revert d. induction rs as [|r rs IH]; intros d Hname Hnd Hfresh; simpl.
  - rewrite app_nil_r. destruct d; reflexivity.
  - inversion Hnd as [|? ? Hr Hrs]; subst.
    unfold bind at 1. rewrite insertRight_step.
    assert (E1 : existsb (rights_row_eqb (mkRightsRow name r)) (rights d) = false).
    { apply (existsb_false_iff _ _ _ (existsb_row_In _ _)). apply Hfresh. left. reflexivity. }
    assert (E2 : existsb (fun t => (tr_name t =? name)%string) (tokens d) = true).
    { apply existsb_name_In. assumption. }
    rewrite E1, E2. simpl negb. cbv iota.
    rewrite IH; simpl; auto.
    + rewrite <- app_assoc. reflexivity.
    + intros r' Hr' Hin. apply in_app_iff in Hin. destruct Hin as [Hin | [Heq | []]].
      * apply (Hfresh r'); [right; assumption | assumption].
      * inversion Heq. subst. contradiction.
Qed.

Lemma for_of_rights_fail (name : string) (pre : list string) (r : string)
    (post : list string) (d : DatabaseSync) :
  In name (map tr_name (tokens d)) ->
  NoDup pre ->
  (forall r', In r' pre -> ~ In (mkRightsRow name r') (rights d)) ->
  In r pre \/ In (mkRightsRow name r) (rights d) ->
  for_of (pre ++ r :: post)
         (fun right => insertRightStatement_run name right ;;; ret tt) d
  = (mkDb (tokens d) (rights d ++ rights_rows name pre),
     Throw (SqliteError UNIQUE_rights_name_right)).
Proof.
  intros Hname Hnd Hfresh Hr.
  rewrite for_of_app. unfold bind at 1.
  rewrite for_of_rights_ok by assumption.
  simpl for_of. unfold bind at 1. rewrite insertRight_step. simpl rights.
  assert (E : existsb (rights_row_eqb (mkRightsRow name r))
                (rights d ++ rights_rows name pre) = true).
  { apply existsb_row_In. apply in_app_iff. destruct Hr as [Hr | Hr].
    - right. unfold rights_rows. apply in_map. assumption.
    - left. assumption. }
  rewrite E. reflexivity.
Qed.

Lemma generateToken_eq (options : AuthDatabaseGenerateTokenOptions)
    (entropy : nat -> Byte.byte) (db : DatabaseSync) :
  generateToken options entropy db
  = if existsb (fun t => (tr_name t =? opt_name options)%string) (tokens db) then
      (db, Throw (DuplicateNameError (opt_name options)))
    else if existsb (fun t => (tr_token t =? secret_of entropy)%string) (tokens db) then
      (db, Throw (SqliteError UNIQUE_tokens_token))
    else if negb (int64_storable (expiration_of options)) then
      (db, Throw (SqliteError DATATYPE_tokens_expiration))
    else
      match for_of (opt_rights options)
              (fun right => insertRightStatement_run (opt_name options) right ;;; ret tt)
              (mkDb (tokens db ++ [token_row options entropy]) (rights db)) with
      | (d', Return _) =>
          (d', Return (mkToken (opt_name options) (expiration_of options)
                               (secret_of entropy) (opt_rights options)))
      | (d', Throw e) => (d', Throw e)
      end.
Proof.
  unfold generateToken. unfold bind at 1. rewrite hasToken_eq.
  destruct (existsb _ (tokens db)) eqn:En; [reflexivity|].
  unfold bind at 1. unfold insertTokenStatement_run at 1. rewrite En.
  fold (secret_of entropy). fold (expiration_of options).
  destruct (existsb (fun t => (tr_token t =? secret_of entropy)%string) (tokens db));
    [reflexivity|].
  destruct (int64_storable (expiration_of options)); [| reflexivity].
  cbn [negb]. unfold bind at 1.
  fold (token_row options entropy).
  destruct (for_of _ _ _) as [d' [[]|e]]; reflexivity.
Qed.

(** ** Every statement keeps the constraints of the schema *)

Lemma insertToken_db_ok (name : string) (expiration : Z) (token : string)
    (db : DatabaseSync) :
  db_ok db -> db_ok (state_after (insertTokenStatement_run name expiration token) db).
Proof.
  intros [Hn Hs Hr Hf]. unfold state_after, insertTokenStatement_run.
  destruct (existsb _ (tokens db)) eqn:Et; [constructor; assumption|].
  destruct (existsb (fun t => (tr_name t =? name)%string) (tokens db)) eqn:En;
    [constructor; assumption|].
  destruct (int64_storable expiration); cbn [negb]; [| constructor; assumption].
  apply (existsb_false_iff _ _ _ (existsb_name_In _ _)) in En.
  apply (existsb_false_iff _ _ _ (existsb_token_In _ _)) in Et.
  constructor; simpl.
  - rewrite map_app. apply NoDup_snoc; assumption.
  - rewrite map_app. apply NoDup_snoc; assumption.
  - assumption.
  - intros r Hin. rewrite map_app. apply in_app_iff. left. auto.
Qed.

Lemma insertRight_db_ok (name right : string) (db : DatabaseSync) :
  db_ok db ->
  db_ok (state_after (insertRightStatement_run name right ;;; ret tt) db).
Proof.
  intros [Hn Hs Hr Hf]. unfold state_after. rewrite insertRight_step.
  destruct (existsb (rights_row_eqb _) _) eqn:Er; [constructor; assumption|].
  destruct (existsb (fun t => (tr_name t =? name)%string) (tokens db)) eqn:En;
    simpl negb; cbv iota; [| constructor; assumption].
  apply (existsb_false_iff _ _ _ (existsb_row_In _ _)) in Er.
  apply existsb_name_In in En.
  constructor; simpl; try assumption.
  - apply NoDup_snoc; assumption.
  - intros r Hin. apply in_app_iff in Hin. destruct Hin as [Hin | [<- | []]]; auto.
Qed.

Lemma for_of_invariant {A} (P : DatabaseSync -> Prop) (body : A -> M unit) :
  (forall x d, P d -> P (state_after (body x) d)) ->
  forall xs d, P d -> P (state_after (for_of xs body) d).
Proof.
  intros Hbody xs. induction xs as [|x xs IH]; intros d Hd; simpl.
  - assumption.
  - unfold state_after, bind. specialize (Hbody x d Hd). unfold state_after in Hbody.
    destruct (body x d) as [d1 [[]|e]]; simpl in *.
    + apply IH. assumption.
    + assumption.
Qed.

Lemma generateToken_db_ok (options : AuthDatabaseGenerateTokenOptions)
    (entropy : nat -> Byte.byte) (db : DatabaseSync) :
  db_ok db -> db_ok (state_after (generateToken options entropy) db).
Proof.
  intros Hok. unfold state_after. rewrite generateToken_eq.
  destruct (existsb _ (tokens db)) eqn:En; [assumption|].
  destruct (existsb (fun t => (tr_token t =? secret_of entropy)%string) (tokens db))
    eqn:Et; [assumption|].
  destruct (int64_storable (expiration_of options)) eqn:Es; cbn [negb];
    [| assumption].
  pose proof (insertToken_db_ok (opt_name options) (expiration_of options)
                (secret_of entropy) db Hok) as H1.
  unfold state_after, insertTokenStatement_run in H1. rewrite En, Et, Es in H1.
  simpl in H1. fold (token_row options entropy) in H1.
  pose proof (for_of_invariant db_ok _ (insertRight_db_ok (opt_name options))
                (opt_rights options) _ H1) as H2.
  unfold state_after in H2.
  destruct (for_of _ _ _) as [d' [[]|e]]; assumption.
Qed.

Lemma deleteToken_db_ok (name : string) (db : DatabaseSync) :
  db_ok db -> db_ok (state_after (deleteToken name) db).
Proof.
  intros [Hn Hs Hr Hf]. unfold state_after. rewrite deleteToken_eq.
  constructor; simpl.
  - apply NoDup_keys_filter. assumption.
  - apply NoDup_keys_filter. assumption.
  - apply NoDup_filter. assumption.
  - intros r Hin. apply filter_In in Hin. destruct Hin as [Hin Hc].
    apply negb_true_iff in Hc.
    apply Hf in Hin. apply in_map_iff in Hin. destruct Hin as [t [Ht Hin]].
    apply in_map_iff. exists t. split; [assumption|].
    apply filter_In. split; [assumption|].
    destruct (tr_name t =? name)%string eqn:E; [| reflexivity].
    exfalso. unfold cascaded in Hc.
    assert (X : existsb (fun t0 => (tr_name t0 =? rr_name r)%string)
                  (filter (fun t0 => (tr_name t0 =? name)%string) (tokens db)) = true).
    { apply existsb_exists. exists t. split.
      - apply filter_In. split; assumption.
      - apply String.eqb_eq. assumption. }
    congruence.
Qed.

(** ** The lookups leave the store as it is *)

Lemma hasToken_state (name : string) (db : DatabaseSync) :
  state_after (hasToken name) db = db.
Proof. unfold state_after. rewrite hasToken_eq. reflexivity. Qed.

Lemma getOptionalToken_state (name : string) (db : DatabaseSync) :
  state_after (getOptionalToken name) db = db.
Proof. unfold state_after. rewrite getOptionalToken_eq. reflexivity. Qed.

Lemma getToken_state (name : string) (db : DatabaseSync) :
  state_after (getToken name) db = db.
Proof. unfold state_after. rewrite getToken_eq. reflexivity. Qed.

Lemma listTokens_state (db : DatabaseSync) :
  state_after listTokens db = db.
Proof. unfold state_after. rewrite listTokens_eq. reflexivity. Qed.

Lemma verifyTokenValidity_state (token : string) (now_ms : Z) (db : DatabaseSync) :
  state_after (verifyTokenValidity token now_ms) db = db.
Proof. unfold state_after. rewrite verifyTokenValidity_eq. reflexivity. Qed.

Lemma verifyTokenRight_state (token right : string) (db : DatabaseSync) :
  state_after (verifyTokenRight token right) db = db.
Proof. unfold state_after. rewrite verifyTokenRight_eq. reflexivity. Qed.

Lemma memory_db_ok : db_ok memory_db.
Proof. schema_ok. Qed.

Lemma reachable_db_ok (db : DatabaseSync) : reachable db -> db_ok db.
Proof.
  induction 1.
  - apply memory_db_ok.
  - apply generateToken_db_ok. assumption.
  - apply deleteToken_db_ok. assumption.
  - rewrite hasToken_state. assumption.
  - rewrite getToken_state. assumption.
  - rewrite getOptionalToken_state. assumption.
  - rewrite listTokens_state. assumption.
  - rewrite verifyTokenValidity_state. assumption.
  - rewrite verifyTokenRight_state. assumption.
Qed.

(** ** [generateToken] on a fresh name *)

Lemma no_rights_without_token (name : string) (db : DatabaseSync) :
  db_ok db -> ~ In name (map tr_name (tokens db)) ->
  forall r, ~ In (mkRightsRow name r) (rights db).
Proof.
  intros Hok Hname r Hin. apply Hname. apply (ok_foreign db Hok) in Hin. assumption.
Qed.

Lemma generateToken_success (options : AuthDatabaseGenerateTokenOptions)
    (entropy : nat -> Byte.byte) (db : DatabaseSync) :
  db_ok db ->
  ~ In (opt_name options) (map tr_name (tokens db)) ->
  ~ In (secret_of entropy) (map tr_token (tokens db)) ->
  int64_storable (expiration_of options) = true ->
  NoDup (opt_rights options) ->
  generateToken options entropy db
  = (mkDb (tokens db ++ [token_row options entropy])
          (rights db ++ rights_rows (opt_name options) (opt_rights options)),
     Return (mkToken (opt_name options) (expiration_of options)
                     (secret_of entropy) (opt_rights options))).
Proof.
  intros Hok Hname Hsecret Hint Hnd. rewrite generateToken_eq.
  apply (existsb_false_iff _ _ _ (existsb_name_In _ _)) in Hname as En.
  apply (existsb_false_iff _ _ _ (existsb_token_In _ _)) in Hsecret as Et.
  rewrite En, Et, Hint. cbn [negb].
  rewrite for_of_rights_ok; simpl; auto.
  - rewrite map_app. apply in_app_iff. right. left. reflexivity.
  - intros r _. apply no_rights_without_token; assumption.
Qed.

Lemma generateToken_partial (options : AuthDatabaseGenerateTokenOptions)
    (entropy : nat -> Byte.byte) (db : DatabaseSync)
    (pre : list string) (r : string) (post : list string) :
  db_ok db ->
  ~ In (opt_name options) (map tr_name (tokens db)) ->
  ~ In (secret_of entropy) (map tr_token (tokens db)) ->
  int64_storable (expiration_of options) = true ->
  opt_rights options = (pre ++ r :: post)%list ->
  NoDup pre -> In r pre ->
  generateToken options entropy db
  = (mkDb (tokens db ++ [token_row options entropy])
          (rights db ++ rights_rows (opt_name options) pre),
     Throw (SqliteError UNIQUE_rights_name_right)).
Proof.
  intros Hok Hname Hsecret Hint Hrights Hnd Hr. rewrite generateToken_eq.
  apply (existsb_false_iff _ _ _ (existsb_name_In _ _)) in Hname as En.
  apply (existsb_false_iff _ _ _ (existsb_token_In _ _)) in Hsecret as Et.
  rewrite En, Et, Hint, Hrights. cbn [negb].
  rewrite for_of_rights_fail; simpl; auto.
  - rewrite map_app. apply in_app_iff. right. left. reflexivity.
  - intros r' _. apply no_rights_without_token; assumption.
Qed.

(** ** The hexadecimal rendering *)

Lemma hex_digit_is_hex (n : nat) : is_hex_digit (hex_digit n) = true.
Proof. do 16 (destruct n as [|n]; [reflexivity|]). reflexivity. Qed.

Lemma byte_to_hex_app (b : Byte.byte) (s : string) :
  byte_to_hex b ++ s
  = String (hex_digit (Byte.to_nat b / 16)%nat)
      (String (hex_digit (Byte.to_nat b mod 16)%nat) s).
Proof. reflexivity. Qed.

Lemma uint8ArrayToHex_length (bytes : list Byte.byte) :
  String.length (uint8ArrayToHex bytes) = (2 * List.length bytes)%nat.
Proof.
  induction bytes as [|b bs IH]; [reflexivity|].
  change (uint8ArrayToHex (b :: bs)) with (byte_to_hex b ++ uint8ArrayToHex bs).
  rewrite byte_to_hex_app. simpl. rewrite IH. lia.
Qed.

Lemma uint8ArrayToHex_all_hex (bytes : list Byte.byte) :
  all_hex (uint8ArrayToHex bytes) = true.
Proof.
  induction bytes as [|b bs IH]; [reflexivity|].
  change (uint8ArrayToHex (b :: bs)) with (byte_to_hex b ++ uint8ArrayToHex bs).
  rewrite byte_to_hex_app. simpl all_hex.
  rewrite !hex_digit_is_hex, IH. reflexivity.
Qed.

Lemma byte_hex_roundtrip (b : Byte.byte) (s : string) :
  hexToUint8Array (byte_to_hex b ++ s)
  = option_map (cons b) (hexToUint8Array s).
Proof.
  rewrite byte_to_hex_app.
  destruct b; cbn; destruct (hexToUint8Array s); reflexivity.
Qed.

Lemma hexToUint8Array_uint8ArrayToHex (bytes : list Byte.byte) :
  hexToUint8Array (uint8ArrayToHex bytes) = Some bytes.
Proof.
  induction bytes as [|b bs IH]; [reflexivity|].
  change (uint8ArrayToHex (b :: bs)) with (byte_to_hex b ++ uint8ArrayToHex bs).
  rewrite byte_hex_roundtrip, IH. reflexivity.
Qed.

(** ** Keys identify rows *)

Lemma NoDup_key_unique {A B} (key : A -> B) (l : list A) (x y : A) :
  NoDup (map key l) -> In x l -> In y l -> key x = key y -> x = y.
Proof.
  induction l as [|z l IH]; simpl; intros Hnd Hx Hy E; [contradiction|].
  inversion Hnd as [|? ? Hz Hl]; subst.
  destruct Hx as [-> | Hx], Hy as [-> | Hy]; auto.
  - exfalso. apply Hz. rewrite E. apply in_map. assumption.
  - exfalso. apply Hz. rewrite <- E. apply in_map. assumption.
Qed.

Lemma In_rights_of (name right : string) (db : DatabaseSync) :
  In right (rights_of name db) <-> In (mkRightsRow name right) (rights db).
Proof.
  unfold rights_of. rewrite in_map_iff. split.
  - intros [r [Hr Hin]]. apply filter_In in Hin. destruct Hin as [Hin Hn].
    apply String.eqb_eq in Hn. destruct r; simpl in *; subst. assumption.
  - intros Hin. exists (mkRightsRow name right). split; [reflexivity|].
    apply filter_In. split; [assumption | apply String.eqb_refl].
Qed.

Lemma find_token_unique (db : DatabaseSync) (t : AuthDatabaseTokensRow) :
  db_ok db -> In t (tokens db) ->
  find (fun y => (tr_token y =? tr_token t)%string) (tokens db) = Some t.
Proof. intros Hok Hin. apply find_unique; [apply Hok | assumption]. Qed.

Lemma find_name_unique (db : DatabaseSync) (t : AuthDatabaseTokensRow) :
  db_ok db -> In t (tokens db) ->
  find (fun y => (tr_name y =? tr_name t)%string) (tokens db) = Some t.
Proof. intros Hok Hin. apply find_unique; [apply Hok | assumption]. Qed.

Lemma find_token_absent (db : DatabaseSync) (secret : string) :
  ~ In secret (map tr_token (tokens db)) ->
  find (fun y => (tr_token y =? secret)%string) (tokens db) = None.
Proof.
  intros H. apply find_absent. intros x Hx.
  apply String.eqb_neq. intros E. apply H. rewrite <- E. apply in_map. assumption.
Qed.

(** * The claims *)

(** ** C1: creation is not a single unit *)

(** C1 as stated fails.  With the right "read" given twice on the empty
    store, the second insertion into [rights] violates the primary key and
    the call throws, yet the [tokens] row and the first [rights] row are in
    the store afterwards: a call that throws does not always leave the store
    as it found it. *)
Lemma generateToken_repeated_right_not_atomic :
  result_of (generateToken repeated_options entropy0) memory_db
  = Throw (SqliteError UNIQUE_rights_name_right)
  /\ state_after (generateToken repeated_options entropy0) memory_db
     = mkDb [mkTokensRow "test" 0 secret0] [mkRightsRow "test" "read"]
  /\ result_of (hasToken "test")
       (state_after (generateToken repeated_options entropy0) memory_db)
     = Return true
  /\ ~ generateToken_all_or_nothing.
Proof.
  repeat split; try reflexivity.
  intros H.
  specialize (H memory_db repeated_options entropy0
                (SqliteError UNIQUE_rights_name_right) memory_db_ok eq_refl).
  discriminate H.
Qed.

(** C1, amended.  [generateToken] runs the insertion of the token row and of
    each rights row as separate statements with no transaction around them.
    On a store that satisfies the schema, for a name not yet present, a
    secret not yet present and an expiration that the INTEGER column stores
    (so that the token row is inserted and the rights insertions are
    reached): when the insertion of a rights row fails because
    its right string [r] already occurs among the rights [pre] before it in
    the supplied list, the call throws the constraint error of the store,
    and the store then holds the token row and the rights rows of [pre] in
    addition to what it held before. *)
Theorem generateToken_rights_failure_keeps_rows
    (options : AuthDatabaseGenerateTokenOptions) (entropy : nat -> Byte.byte)
    (db : DatabaseSync) (pre : list string) (r : string) (post : list string) :
  db_ok db ->
  ~ In (opt_name options) (map tr_name (tokens db)) ->
  ~ In (secret_of entropy) (map tr_token (tokens db)) ->
  int64_storable (expiration_of options) = true ->
  opt_rights options = (pre ++ r :: post)%list ->
  NoDup pre -> In r pre ->
  result_of (generateToken options entropy) db
  = Throw (SqliteError UNIQUE_rights_name_right)
  /\ state_after (generateToken options entropy) db
     = mkDb (tokens db ++ [token_row options entropy])
            (rights db ++ rights_rows (opt_name options) pre).
Proof.
  intros Hok Hname Hsecret Hint Hrights Hnd Hr.
  unfold result_of, state_after.
  rewrite (generateToken_partial options entropy db pre r post) by assumption.
  split; reflexivity.
Qed.

Lemma generateToken_rights_failure_keeps_rows_witness :
  db_ok memory_db
  /\ opt_rights repeated_options = (["read"] ++ "read" :: [])%list
  /\ (result_of (generateToken repeated_options entropy0) memory_db
      = Throw (SqliteError UNIQUE_rights_name_right)
      /\ state_after (generateToken repeated_options entropy0) memory_db
         = mkDb (tokens memory_db ++ [token_row repeated_options entropy0])
                (rights memory_db ++ rights_rows "test" ["read"])).
Proof.
  split; [schema_ok|].
  split; [reflexivity|].
  apply (generateToken_rights_failure_keeps_rows
           repeated_options entropy0 memory_db ["read"] "read" []).
  - schema_ok.
  - simpl; tauto.
  - simpl; tauto.
  - reflexivity.
  - reflexivity.
  - repeat constructor; simpl; tauto.
  - simpl; auto.
Defined.

(** ** C4: a name already present *)

(** C4.  When a record named [opt_name options] exists, [generateToken]
    throws the already-exists error (DuplicateNameError) and the store is
    the one it was called on: no statement that changes it has run, and
    [listTokens] gives the same result before and after the failed call;
    when it returns a list, that is the same sequence, of the same length,
    one entry per row. *)
Theorem generateToken_duplicate_name
    (options : AuthDatabaseGenerateTokenOptions) (entropy : nat -> Byte.byte)
    (db : DatabaseSync) :
  In (opt_name options) (map tr_name (tokens db)) ->
  result_of (generateToken options entropy) db
  = Throw (DuplicateNameError (opt_name options))
  /\ state_after (generateToken options entropy) db = db
  /\ result_of listTokens (state_after (generateToken options entropy) db)
     = result_of listTokens db
  /\ forall l,
       result_of listTokens db = Return l ->
       result_of listTokens (state_after (generateToken options entropy) db)
       = Return l
       /\ List.length l = List.length (tokens db).
Proof.
  intros Hin. apply existsb_name_In in Hin.
  assert (E : generateToken options entropy db
              = (db, Throw (DuplicateNameError (opt_name options)))).
  { rewrite generateToken_eq, Hin. reflexivity. }
  unfold result_of, state_after. rewrite E. cbn [fst snd].
  split; [reflexivity|]. split; [reflexivity|]. split; [reflexivity|].
  intros l Hl. split; [assumption|].
  rewrite listTokens_eq in Hl. cbn [snd] in Hl.
  destruct (find _ (tokens db)); [discriminate|].
  inversion Hl. apply length_map.
Qed.

Lemma generateToken_duplicate_name_witness :
  In (opt_name test_options) (map tr_name (tokens test_db))
  /\ result_of (generateToken test_options entropy1) test_db
     = Throw (DuplicateNameError "test")
  /\ state_after (generateToken test_options entropy1) test_db = test_db.
Proof.
  split; [simpl; auto|].
  destruct (generateToken_duplicate_name test_options entropy1 test_db)
    as [H1 [H2 _]]; [simpl; auto|].
  split; assumption.
Defined.

(** ** C2: validity of a secret *)

Lemma valid_row_iff (t : AuthDatabaseTokensRow) (secret : string) (now : Z) :
  (tr_token t =? secret)%string
  && ((tr_expiration t >? now) || (tr_expiration t =? 0)) = true
  <-> tr_token t = secret /\ (tr_expiration t = 0 \/ tr_expiration t > now).
Proof.
  rewrite andb_true_iff, orb_true_iff, String.eqb_eq, Z.gtb_lt, Z.eqb_eq.
  intuition lia.
Qed.

Lemma validity_true_iff (db : DatabaseSync) (secret : string) (now_ms : Z) :
  existsb (fun t => (tr_token t =? secret)%string
                    && ((tr_expiration t >? unix_seconds now_ms)
                        || (tr_expiration t =? 0))) (tokens db) = true
  <-> exists t, In t (tokens db) /\ tr_token t = secret
                /\ (tr_expiration t = 0 \/ tr_expiration t > unix_seconds now_ms).
Proof.
  rewrite existsb_exists. split; intros [t [Hin Hv]]; exists t.
  - apply valid_row_iff in Hv. tauto.
  - split; [assumption | apply valid_row_iff; assumption].
Qed.

Lemma validity_expired (db : DatabaseSync) (secret : string) (now_ms : Z)
    (t : AuthDatabaseTokensRow) :
  db_ok db -> In t (tokens db) -> tr_token t = secret -> expired t now_ms ->
  verifyTokenValidity secret now_ms db = (db, Return false).
Proof.
  intros Hok Hin Hsec [Hnz Hpast]. rewrite verifyTokenValidity_eq. do 2 f_equal.
  apply not_true_is_false. intros Htrue. apply validity_true_iff in Htrue.
  destruct Htrue as [t' [Hin' [Hsec' Hv]]].
  assert (t' = t).
  { apply (NoDup_key_unique tr_token (tokens db)); try assumption.
    - apply Hok.
    - congruence. }
  subst t'. lia.
Qed.

Lemma validity_absent (db : DatabaseSync) (secret : string) (now_ms : Z) :
  ~ In secret (map tr_token (tokens db)) ->
  verifyTokenValidity secret now_ms db = (db, Return false).
Proof.
  intros Habs. rewrite verifyTokenValidity_eq. do 2 f_equal.
  apply not_true_is_false. intros Htrue. apply validity_true_iff in Htrue.
  destruct Htrue as [t [Hin [Hsec _]]].
  apply Habs. rewrite <- Hsec. apply in_map. assumption.
Qed.

(** C2.  On a store that satisfies the schema, [verifyTokenValidity] returns
    a boolean and never throws; it returns true exactly when some record has
    the given secret and an expiration that is 0 or strictly greater than
    the current Unix time in seconds; a record with that secret whose
    expiration is not 0 and not after the current second makes it return
    false; a secret of no record makes it return false. *)
Theorem verifyTokenValidity_spec (db : DatabaseSync) (secret : string)
    (now_ms : Z) :
  db_ok db ->
  (exists b,
      verifyTokenValidity secret now_ms db = (db, Return b)
      /\ (b = true <->
          exists t, In t (tokens db) /\ tr_token t = secret
                    /\ (tr_expiration t = 0
                        \/ tr_expiration t > unix_seconds now_ms)))
  /\ (forall t, In t (tokens db) -> tr_token t = secret -> expired t now_ms ->
      result_of (verifyTokenValidity secret now_ms) db = Return false)
  /\ (~ In secret (map tr_token (tokens db)) ->
      result_of (verifyTokenValidity secret now_ms) db = Return false).
Proof.
  intros Hok. split; [| split].
  - eexists. split; [apply verifyTokenValidity_eq | apply validity_true_iff].
  - intros t Hin Hsec Hexp. unfold result_of.
    rewrite (validity_expired db secret now_ms t); auto.
  - intros Habs. unfold result_of. rewrite validity_absent; auto.
Qed.

Lemma verifyTokenValidity_spec_witness :
  db_ok expired_db
  /\ result_of (verifyTokenValidity secret0 sample_now_ms) expired_db
     = Return false
  /\ result_of (verifyTokenValidity secret0 59999) expired_db = Return true.
Proof.
  split; [schema_ok|].
  split.
  - destruct (verifyTokenValidity_spec expired_db secret0 sample_now_ms)
      as [_ [H _]]; [schema_ok|].
    apply (H (mkTokensRow "old" 60 secret0)).
    + simpl; auto.
    + reflexivity.
    + expired_now.
  - reflexivity.
Defined.

(** ** C3: rights of a secret *)

Lemma find_with_expirations (f : AuthDatabaseTokensRow -> Z)
    (p : string -> string -> bool) (l : list AuthDatabaseTokensRow) :
  option_map (fun t => (tr_name t, tr_token t))
    (find (fun t => p (tr_name t) (tr_token t))
          (map (fun t => mkTokensRow (tr_name t) (f t) (tr_token t)) l))
  = option_map (fun t => (tr_name t, tr_token t))
      (find (fun t => p (tr_name t) (tr_token t)) l).
Proof.
  induction l as [|t l IH]; simpl; [reflexivity|].
  destruct (p (tr_name t) (tr_token t)); [reflexivity | assumption].
Qed.

Lemma verifyTokenRight_with_expirations (f : AuthDatabaseTokensRow -> Z)
    (secret right : string) (db : DatabaseSync) :
  result_of (verifyTokenRight secret right) (with_expirations f db)
  = result_of (verifyTokenRight secret right) db.
Proof.
  unfold result_of. rewrite !verifyTokenRight_eq. simpl.
  pose proof (find_with_expirations f (fun _ tok => (tok =? secret)%string)
                (tokens db)) as H.
  simpl in H.
  destruct (find _ (map _ (tokens db))) as [t1|],
           (find _ (tokens db)) as [t2|]; simpl in H; try discriminate.
  - inversion H as [[Hn Ht]]. rewrite Hn. reflexivity.
  - reflexivity.
Qed.

(** C3.  On a store that satisfies the schema, [verifyTokenRight] returns a
    boolean and never throws; it returns true exactly when some record has
    the given secret and its right-set contains [right]; it returns false
    for a right the record does not hold and for a secret of no record; the
    result does not depend on the expiration column, and a record that is
    expired (so that [verifyTokenValidity] returns false) still gives true
    for a right it holds. *)
Theorem verifyTokenRight_spec (db : DatabaseSync) (secret right : string) :
  db_ok db ->
  (exists b,
      verifyTokenRight secret right db = (db, Return b)
      /\ (b = true <->
          exists t, In t (tokens db) /\ tr_token t = secret
                    /\ In right (rights_of (tr_name t) db)))
  /\ (forall t, In t (tokens db) -> tr_token t = secret ->
      ~ In right (rights_of (tr_name t) db) ->
      result_of (verifyTokenRight secret right) db = Return false)
  /\ (~ In secret (map tr_token (tokens db)) ->
      result_of (verifyTokenRight secret right) db = Return false)
  /\ (forall f,
      result_of (verifyTokenRight secret right) (with_expirations f db)
      = result_of (verifyTokenRight secret right) db)
  /\ (forall t now_ms, In t (tokens db) -> tr_token t = secret ->
      expired t now_ms -> In right (rights_of (tr_name t) db) ->
      result_of (verifyTokenRight secret right) db = Return true
      /\ result_of (verifyTokenValidity secret now_ms) db = Return false).
Proof.
  intros Hok.
  assert (Hrow : forall t, In t (tokens db) -> tr_token t = secret ->
            verifyTokenRight secret right db
            = (db, Return (existsb (rights_row_eqb (mkRightsRow (tr_name t) right))
                                   (rights db)))).
  { intros t Hin Hsec. rewrite verifyTokenRight_eq. subst secret.
    rewrite (find_token_unique db t Hok Hin). reflexivity. }
  assert (Habsent : ~ In secret (map tr_token (tokens db)) ->
            verifyTokenRight secret right db = (db, Return false)).
  { intros Habs. rewrite verifyTokenRight_eq, (find_token_absent db secret Habs).
    reflexivity. }
  assert (Hhold : forall t, In t (tokens db) -> tr_token t = secret ->
            In right (rights_of (tr_name t) db) ->
            verifyTokenRight secret right db = (db, Return true)).
  { intros t Hin Hsec Hr. rewrite (Hrow t Hin Hsec). do 2 f_equal.
    apply existsb_row_In, In_rights_of. assumption. }
  assert (Hmiss : forall t, In t (tokens db) -> tr_token t = secret ->
            ~ In right (rights_of (tr_name t) db) ->
            verifyTokenRight secret right db = (db, Return false)).
  { intros t Hin Hsec Hr. rewrite (Hrow t Hin Hsec). do 2 f_equal.
    apply (existsb_false_iff _ _ _ (existsb_row_In _ _)).
    rewrite <- In_rights_of. assumption. }
  split; [| split; [| split; [| split]]].
  - destruct (in_dec string_dec secret (map tr_token (tokens db))) as [Hin | Habs].
    + apply in_map_iff in Hin. destruct Hin as [t [Hsec Hin]].
      destruct (in_dec string_dec right (rights_of (tr_name t) db)) as [Hr | Hr].
      * exists true. split; [apply (Hhold t); assumption|].
        split; [| reflexivity]. intros _. exists t. tauto.
      * exists false. split; [apply (Hmiss t); assumption|].
        split; [discriminate|]. intros [t' [Hin' [Hsec' Hr']]].
        assert (t' = t).
        { apply (NoDup_key_unique tr_token (tokens db)); try assumption.
          - apply Hok.
          - congruence. }
        subst t'. contradiction.
    + exists false. split; [apply Habsent; assumption|].
      split; [discriminate|]. intros [t [Hin [Hsec _]]].
      exfalso. apply Habs. rewrite <- Hsec. apply in_map. assumption.
  - intros t Hin Hsec Hr. unfold result_of. rewrite (Hmiss t); auto.
  - intros Habs. unfold result_of. rewrite Habsent; auto.
  - intros f. apply verifyTokenRight_with_expirations.
  - intros t now_ms Hin Hsec Hexp Hr. split.
    + unfold result_of. rewrite (Hhold t); auto.
    + unfold result_of. rewrite (validity_expired db secret now_ms t); auto.
Qed.

Lemma verifyTokenRight_spec_witness :
  db_ok expired_db
  /\ result_of (verifyTokenRight secret0 "read") expired_db = Return true
  /\ result_of (verifyTokenValidity secret0 sample_now_ms) expired_db
     = Return false.
Proof.
  split; [schema_ok|].
  destruct (verifyTokenRight_spec expired_db secret0 "read")
    as [_ [_ [_ [_ H]]]]; [schema_ok|].
  apply (H (mkTokensRow "old" 60 secret0) sample_now_ms).
  - simpl; auto.
  - reflexivity.
  - expired_now.
  - simpl; auto.
Defined.

(** ** More on the statements *)

Lemma find_app_none {A} (p : A -> bool) (l1 l2 : list A) :
  find p l1 = None -> find p (l1 ++ l2) = find p l2.
Proof.
  induction l1 as [|x l1 IH]; simpl; [reflexivity|].
  destruct (p x); [discriminate | assumption].
Qed.

Lemma find_name_absent (l : list AuthDatabaseTokensRow) (name : string) :
  ~ In name (map tr_name l) ->
  find (fun y => (tr_name y =? name)%string) l = None.
Proof.
  intros H. apply find_absent. intros x Hx.
  apply String.eqb_neq. intros E. apply H. rewrite <- E. apply in_map. assumption.
Qed.

Lemma filter_none {A} (p : A -> bool) (l : list A) :
  (forall x, In x l -> p x = false) -> filter p l = [].
Proof.
  induction l as [|x l IH]; simpl; intros H; [reflexivity|].
  rewrite (H x (or_introl eq_refl)). apply IH. intros y Hy. apply H. right. assumption.
Qed.

Lemma filter_all {A} (p : A -> bool) (l : list A) :
  (forall x, In x l -> p x = true) -> filter p l = l.
Proof.
  induction l as [|x l IH]; simpl; intros H; [reflexivity|].
  rewrite (H x (or_introl eq_refl)). f_equal. apply IH. intros y Hy. apply H. right. assumption.
Qed.

Lemma filter_length_lt {A} (p : A -> bool) (l : list A) :
  (List.length (filter (fun x => negb (p x)) l) < List.length l)%nat
  <-> exists x, In x l /\ p x = true.
Proof.
  induction l as [|x l IH]; simpl.
  - split; [lia | intros [x [[] _]]].
  - pose proof (filter_length_le (fun x => negb (p x)) l) as Hle.
    destruct (p x) eqn:E; simpl.
    + split; [intros _; exists x; auto | lia].
    + split.
      * intros H. assert (H' : (List.length (filter (fun x => negb (p x)) l)
                                < List.length l)%nat) by lia.
        apply IH in H'. destruct H' as [y [Hy Hp]]. exists y. auto.
      * intros [y [[-> | Hy] Hp]]; [congruence|].
        assert (H' : (List.length (filter (fun x => negb (p x)) l)
                      < List.length l)%nat) by (apply IH; exists y; auto).
        lia.
Qed.

Lemma rights_of_rights_rows (name : string) (rs : list string)
    (T : list AuthDatabaseTokensRow) (R : list AuthDatabaseRightsRow) :
  rights_of name (mkDb T (R ++ rights_rows name rs))
  = (rights_of name (mkDb T R) ++ rs)%list.
Proof.
  unfold rights_of. simpl. rewrite filter_app, map_app. f_equal.
  unfold rights_rows. rewrite filter_all.
  - rewrite map_map. simpl. apply map_id.
  - intros x Hx. apply in_map_iff in Hx. destruct Hx as [r [<- _]].
    simpl. apply String.eqb_refl.
Qed.

Lemma rights_of_absent (name : string) (db : DatabaseSync) :
  db_ok db -> ~ In name (map tr_name (tokens db)) -> rights_of name db = [].
Proof.
  intros Hok Habs. unfold rights_of. rewrite filter_none; [reflexivity|].
  intros r Hr. apply String.eqb_neq. intros E. apply Habs.
  rewrite <- E. apply (ok_foreign db Hok). assumption.
Qed.

(** ** Reading values back *)

Lemma cut_no_NUL (s : string) : has_no_NUL s = true -> cut_at_NUL s = s.
Proof.
  induction s as [|c s IH]; simpl; intros H; [reflexivity|].
  apply andb_true_iff in H. destruct H as [Hc Hs].
  apply negb_true_iff in Hc. rewrite Hc, IH by assumption. reflexivity.
Qed.

Lemma map_cut_no_NUL (l : list string) :
  forallb has_no_NUL l = true -> map cut_at_NUL l = l.
Proof.
  induction l as [|x l IH]; simpl; intros H; [reflexivity|].
  apply andb_true_iff in H. destruct H as [Hx Hl].
  rewrite cut_no_NUL, IH by assumption. reflexivity.
Qed.

Lemma index_insert_perm (x : string) (l : list string) :
  Permutation (index_insert x l) (x :: l).
Proof.
  induction l as [|y l IH]; simpl; [apply Permutation_refl|].
  destruct (String.leb x y); [apply Permutation_refl|].
  apply (perm_trans (perm_skip y IH)). apply perm_swap.
Qed.

Lemma index_order_perm (l : list string) : Permutation (index_order l) l.
Proof.
  induction l as [|x l IH]; simpl; [apply perm_nil|].
  apply (perm_trans (index_insert_perm x (index_order l))).
  apply perm_skip. assumption.
Qed.

Lemma index_order_no_NUL (l : list string) :
  forallb has_no_NUL l = true -> forallb has_no_NUL (index_order l) = true.
Proof.
  rewrite !forallb_forall. intros H x Hx. apply H.
  apply (Permutation_in x (index_order_perm l)). assumption.
Qed.

Lemma safe_integer_storable (e : Z) :
  safe_integer e = true -> int64_storable e = true.
Proof.
  unfold safe_integer, int64_storable. rewrite !andb_true_iff.
  rewrite !Z.leb_le, !Z.ltb_lt. intros [H1 H2].
  assert (2 ^ 53 < 2 ^ 63) by reflexivity. lia.
Qed.

Lemma options_readable_parts (options : AuthDatabaseGenerateTokenOptions) :
  options_readable options = true ->
  has_no_NUL (opt_name options) = true
  /\ safe_integer (expiration_of options) = true
  /\ forallb has_no_NUL (opt_rights options) = true.
Proof.
  unfold options_readable. rewrite !andb_true_iff. tauto.
Qed.

(** After a successful creation of a record that reads back as stored, the
    lookup by name finds the new row with the rights of the call, in index
    order. *)
Lemma getToken_after_generateToken
    (options : AuthDatabaseGenerateTokenOptions) (entropy : nat -> Byte.byte)
    (db : DatabaseSync) :
  db_ok db ->
  ~ In (opt_name options) (map tr_name (tokens db)) ->
  ~ In (secret_of entropy) (map tr_token (tokens db)) ->
  options_readable options = true ->
  NoDup (opt_rights options) ->
  getOptionalToken (opt_name options)
    (state_after (generateToken options entropy) db)
  = (state_after (generateToken options entropy) db,
     Return (Some (mkSafeToken (opt_name options) (expiration_of options)
                               (index_order (opt_rights options))))).
Proof.
  intros Hok Hname Hsecret Hread Hnd. unfold state_after.
  destruct (options_readable_parts options Hread) as [Hplain [Hsafe Hrights]].
  rewrite generateToken_success
    by (try assumption; apply safe_integer_storable; assumption).
  cbn [fst]. rewrite getOptionalToken_eq. cbn [tokens].
  rewrite find_app_none by (apply find_name_absent; assumption).
  cbn [find token_row tr_name]. rewrite String.eqb_refl.
  change (tr_expiration (token_row options entropy))
    with (expiration_of options).
  rewrite Hsafe.
  unfold safe_token.
  change (tr_expiration (token_row options entropy))
    with (expiration_of options).
  change (tr_name (token_row options entropy)) with (opt_name options).
  rewrite (cut_no_NUL _ Hplain). unfold read_rights.
  rewrite rights_of_rights_rows.
  change (rights_of (opt_name options)
            (mkDb (tokens db ++ [token_row options entropy]) (rights db)))
    with (rights_of (opt_name options) db).
  rewrite rights_of_absent by assumption. cbn [app].
  rewrite map_cut_no_NUL by (apply index_order_no_NUL; assumption).
  reflexivity.
Qed.

Lemma for_of_rights_tokens (name : string) (rs : list string) (d : DatabaseSync) :
  tokens (state_after
            (for_of rs (fun right => insertRightStatement_run name right ;;; ret tt)) d)
  = tokens d.
Proof.
  apply (for_of_invariant (fun d' => tokens d' = tokens d)); [| reflexivity].
  intros r d' Hd'. unfold state_after. rewrite insertRight_step.
  destruct (existsb _ (rights d')); [assumption|].
  destruct (negb _); assumption.
Qed.

Lemma generateToken_keeps_rows (options : AuthDatabaseGenerateTokenOptions)
    (entropy : nat -> Byte.byte) (db : DatabaseSync) (t : AuthDatabaseTokensRow) :
  In t (tokens db) ->
  In t (tokens (state_after (generateToken options entropy) db)).
Proof.
  intros Hin. unfold state_after. rewrite generateToken_eq.
  destruct (existsb _ (tokens db)); [assumption|].
  destruct (existsb _ (tokens db)); [assumption|].
  destruct (negb _); [assumption|].
  pose proof (for_of_rights_tokens (opt_name options) (opt_rights options)
                (mkDb (tokens db ++ [token_row options entropy]) (rights db))) as H.
  unfold state_after in H.
  destruct (for_of _ _ _) as [d' [[]|e]]; simpl in *; rewrite H;
    apply in_app_iff; left; assumption.
Qed.

(** ** [deleteToken], by cases *)

Lemma deleteToken_absent (name : string) (db : DatabaseSync) :
  ~ In name (map tr_name (tokens db)) ->
  deleteToken name db = (db, Return false).
Proof.
  intros Habs. rewrite deleteToken_eq.
  assert (E : filter (fun t => (tr_name t =? name)%string) (tokens db) = []).
  { apply filter_none. intros t Ht. apply String.eqb_neq. intros E.
    apply Habs. rewrite <- E. apply in_map. assumption. }
  rewrite E. simpl. rewrite filter_true.
  rewrite filter_all.
  - destruct db; reflexivity.
  - intros t Ht. apply negb_true_iff, String.eqb_neq. intros E'.
    apply Habs. rewrite <- E'. apply in_map. assumption.
Qed.

Lemma deleteToken_present (name : string) (db : DatabaseSync) :
  In name (map tr_name (tokens db)) ->
  deleteToken name db
  = (mkDb (filter (fun t => negb (tr_name t =? name)%string) (tokens db))
          (filter (fun r => negb (rr_name r =? name)%string) (rights db)),
     Return true).
Proof.
  intros Hin. rewrite deleteToken_eq.
  apply in_map_iff in Hin. destruct Hin as [t [Ht Hin]].
  assert (Hd : In t (filter (fun t => (tr_name t =? name)%string) (tokens db))).
  { apply filter_In. split; [assumption | apply String.eqb_eq; assumption]. }
  f_equal.
  - f_equal. apply filter_ext. intros r. f_equal. unfold cascaded.
    destruct (rr_name r =? name)%string eqn:E.
    + apply existsb_exists. exists t. split; [assumption|].
      apply String.eqb_eq in E. apply String.eqb_eq. congruence.
    + apply not_true_is_false. intros H. apply existsb_exists in H.
      destruct H as [t' [Ht' E']]. apply filter_In in Ht'. destruct Ht' as [_ Hn].
      apply String.eqb_eq in Hn, E'. apply String.eqb_neq in E. congruence.
  - f_equal. destruct (filter _ (tokens db)); [contradiction | reflexivity].
Qed.

(** ** The lookups read the safe view only *)

Lemma find_safe {X} (F : string -> Z -> X) (p : string -> Z -> bool)
    (l1 l2 : list AuthDatabaseTokensRow) :
  map (fun t => (tr_name t, tr_expiration t)) l1
  = map (fun t => (tr_name t, tr_expiration t)) l2 ->
  option_map (fun t => F (tr_name t) (tr_expiration t))
    (find (fun t => p (tr_name t) (tr_expiration t)) l1)
  = option_map (fun t => F (tr_name t) (tr_expiration t))
      (find (fun t => p (tr_name t) (tr_expiration t)) l2).
Proof.
  revert l2. induction l1 as [|x l1 IH]; intros [|y l2] H; simpl in *;
    try discriminate; [reflexivity|].
  inversion H as [[Hn He Hl]]. rewrite Hn, He.
  destruct (p (tr_name y) (tr_expiration y)); simpl.
  - rewrite Hn, He. reflexivity.
  - apply IH. assumption.
Qed.

Lemma map_safe {X} (F : string -> Z -> X) (l1 l2 : list AuthDatabaseTokensRow) :
  map (fun t => (tr_name t, tr_expiration t)) l1
  = map (fun t => (tr_name t, tr_expiration t)) l2 ->
  map (fun t => F (tr_name t) (tr_expiration t)) l1
  = map (fun t => F (tr_name t) (tr_expiration t)) l2.
Proof.
  revert l2. induction l1 as [|x l1 IH]; intros [|y l2] H; simpl in *;
    try discriminate; [reflexivity|].
  inversion H as [[Hn He Hl]]. rewrite Hn, He. f_equal. apply IH. assumption.
Qed.

Lemma lookups_of_safe_view (db1 db2 : DatabaseSync) :
  safe_view db1 = safe_view db2 ->
  (forall name, result_of (getToken name) db1 = result_of (getToken name) db2)
  /\ (forall name, result_of (getOptionalToken name) db1
                   = result_of (getOptionalToken name) db2)
  /\ result_of listTokens db1 = result_of listTokens db2.
Proof.
  unfold safe_view. intros H. inversion H as [[Ht Hr]].
  assert (Hsame : forall t, safe_token db1 t = safe_token db2 t).
  { intros t. unfold safe_token, read_rights, rights_of. rewrite Hr. reflexivity. }
  assert (Hfind : forall name,
    option_map (fun t => if safe_integer (tr_expiration t)
                         then Return (Some (safe_token db2 t))
                         else Throw (RangeError (tr_expiration t)))
      (find (fun t => (tr_name t =? name)%string) (tokens db1))
    = option_map (fun t => if safe_integer (tr_expiration t)
                           then Return (Some (safe_token db2 t))
                           else Throw (RangeError (tr_expiration t)))
        (find (fun t => (tr_name t =? name)%string) (tokens db2))).
  { intros name.
    apply (find_safe
             (fun n e => if safe_integer e
                         then Return (Some (mkSafeToken (cut_at_NUL n) e
                                              (read_rights (cut_at_NUL n) db2)))
                         else Throw (RangeError e))
             (fun n _ => (n =? name)%string)). assumption. }
  assert (Hopt : forall name,
            result_of (getOptionalToken name) db1
            = result_of (getOptionalToken name) db2).
  { intros name. specialize (Hfind name). unfold result_of.
    rewrite !getOptionalToken_eq. cbn [snd].
    destruct (find _ (tokens db1)) as [t1|], (find _ (tokens db2)) as [t2|];
      simpl in Hfind; try discriminate; [| reflexivity].
    rewrite Hsame. congruence. }
  split; [| split].
  - intros name. specialize (Hfind name). unfold result_of.
    rewrite !getToken_eq. cbn [snd].
    destruct (find _ (tokens db1)) as [t1|], (find _ (tokens db2)) as [t2|];
      simpl in Hfind; try discriminate; [| reflexivity].
    rewrite Hsame. inversion Hfind as [Hx].
    destruct (safe_integer (tr_expiration t1)), (safe_integer (tr_expiration t2));
      congruence.
  - assumption.
  - unfold result_of. rewrite !listTokens_eq. cbn [snd].
    pose proof (find_safe (fun _ e => e) (fun _ e => negb (safe_integer e))
                  (tokens db1) (tokens db2) Ht) as Hbad.
    simpl in Hbad.
    destruct (find _ (tokens db1)) as [t1|], (find _ (tokens db2)) as [t2|];
      simpl in Hbad; try discriminate.
    + congruence.
    + f_equal. rewrite (map_ext _ _ Hsame).
      apply (map_safe (fun n e => mkSafeToken (cut_at_NUL n) e
                                    (read_rights (cut_at_NUL n) db2))).
      assumption.
Qed.

Lemma safe_view_with_secrets (g : AuthDatabaseTokensRow -> string)
    (db : DatabaseSync) :
  safe_view (with_secrets g db) = safe_view db.
Proof. unfold safe_view, with_secrets. simpl. rewrite map_map. reflexivity. Qed.

(** ** C5: creation, then lookup *)

(** C5 as stated fails.  On the empty store: with expiration 2^53 the call
    returns, and [getToken] of the name then throws a RangeError; with the
    name a-NUL-b the call returns, and [getToken] of the name returns a
    record named a with no rights; with expiration 2^63 the call itself
    throws, the INTEGER column refusing the value; with the right "read"
    given twice the call throws on the second rights row. *)
Lemma generateToken_then_getToken_fails :
  (result_of (generateToken unsafe_options entropy0) memory_db
   = Return (mkToken "big" (2 ^ 53) secret0 ["read"])
   /\ result_of (getToken "big")
        (state_after (generateToken unsafe_options entropy0) memory_db)
      = Throw (RangeError (2 ^ 53)))
  /\ (result_of (generateToken nul_options entropy0) memory_db
      = Return (mkToken nul_name 60 secret0 ["read"])
      /\ result_of (getToken nul_name)
           (state_after (generateToken nul_options entropy0) memory_db)
         = Return (mkSafeToken "a" 60 []))
  /\ (result_of (generateToken overflow_options entropy0) memory_db
      = Throw (SqliteError DATATYPE_tokens_expiration)
      /\ result_of (getToken "far")
           (state_after (generateToken overflow_options entropy0) memory_db)
         = Throw (NotFoundError "far"))
  /\ result_of (generateToken repeated_options entropy0) memory_db
     = Throw (SqliteError UNIQUE_rights_name_right).
Proof. repeat split; vm_compute; reflexivity. Qed.

(** C5, amended.  On a store that satisfies the schema, for a name not yet
    present and without NUL, an expiration that is a safe integer, a rights
    list without repetition whose strings have no NUL, and a drawn secret
    not yet present, [generateToken] returns the record with the drawn
    secret, and [getToken] of the name then returns the name, the
    expiration and a rights list that is a permutation of the rights
    supplied.  The lookups do not expose the secret: had the call drawn any
    other secret, [getToken], [getOptionalToken] and [listTokens] would
    return the same results for every name. *)
Theorem generateToken_then_getToken
    (options : AuthDatabaseGenerateTokenOptions) (entropy : nat -> Byte.byte)
    (db : DatabaseSync) :
  db_ok db ->
  ~ In (opt_name options) (map tr_name (tokens db)) ->
  ~ In (secret_of entropy) (map tr_token (tokens db)) ->
  options_readable options = true ->
  NoDup (opt_rights options) ->
  result_of (generateToken options entropy) db
  = Return (mkToken (opt_name options) (expiration_of options)
                    (secret_of entropy) (opt_rights options))
  /\ (exists rs,
        result_of (getToken (opt_name options))
          (state_after (generateToken options entropy) db)
        = Return (mkSafeToken (opt_name options) (expiration_of options) rs)
        /\ Permutation rs (opt_rights options))
  /\ (forall entropy',
        ~ In (secret_of entropy') (map tr_token (tokens db)) ->
        (forall name,
            result_of (getToken name)
              (state_after (generateToken options entropy') db)
            = result_of (getToken name)
                (state_after (generateToken options entropy) db))
        /\ (forall name,
              result_of (getOptionalToken name)
                (state_after (generateToken options entropy') db)
              = result_of (getOptionalToken name)
                  (state_after (generateToken options entropy) db))
        /\ result_of listTokens (state_after (generateToken options entropy') db)
           = result_of listTokens (state_after (generateToken options entropy) db)).
Proof.
  intros Hok Hname Hsecret Hread Hnd.
  assert (Hint : int64_storable (expiration_of options) = true).
  { apply safe_integer_storable. apply (options_readable_parts options Hread). }
  split; [| split].
  - unfold result_of. rewrite generateToken_success by assumption. reflexivity.
  - exists (index_order (opt_rights options)).
    split; [| apply index_order_perm].
    unfold result_of, getToken, bind.
    rewrite getToken_after_generateToken by assumption. reflexivity.
  - intros entropy' Hsecret'. apply lookups_of_safe_view.
    unfold state_after. rewrite !generateToken_success by assumption.
    unfold safe_view. simpl. rewrite !map_app. reflexivity.
Qed.

Lemma generateToken_then_getToken_witness :
  db_ok test_db
  /\ options_readable unsorted_options = true
  /\ NoDup (opt_rights unsorted_options)
  /\ exists rs,
       result_of (getToken "svc")
         (state_after (generateToken unsorted_options entropy1) test_db)
       = Return (mkSafeToken "svc" 0 rs)
       /\ Permutation rs ["write"; "read"].
Proof.
  assert (Hnd : NoDup (opt_rights unsorted_options)).
  { repeat constructor; simpl; intuition discriminate. }
  split; [schema_ok|].
  split; [reflexivity|].
  split; [exact Hnd|].
  destruct (generateToken_then_getToken unsorted_options entropy1 test_db)
    as [_ [H _]].
  - schema_ok.
  - simpl; intuition discriminate.
  - simpl; intuition discriminate.
  - reflexivity.
  - exact Hnd.
  - exact H.
Defined.

(** ** C6: rights rows reference token rows *)

(** C6.  In every state a store reaches from the empty one through its
    methods, every row of [rights] carries the name of a row of [tokens].
    When [deleteToken] returns true, the state it leaves has no [tokens] row
    and no [rights] row with that name: the one DELETE statement removes the
    record and, by the cascade, all its rights; that state is reachable, so
    its remaining rights rows still reference token rows. *)
Theorem reachable_rights_reference_tokens (db : DatabaseSync) :
  reachable db ->
  (forall r, In r (rights db) ->
             exists t, In t (tokens db) /\ tr_name t = rr_name r)
  /\ (forall name,
        result_of (deleteToken name) db = Return true ->
        (forall t, In t (tokens (state_after (deleteToken name) db)) ->
                   tr_name t <> name)
        /\ (forall r, In r (rights (state_after (deleteToken name) db)) ->
                      rr_name r <> name)
        /\ (forall r, In r (rights (state_after (deleteToken name) db)) ->
              exists t, In t (tokens (state_after (deleteToken name) db))
                        /\ tr_name t = rr_name r)).
Proof.
  intros Hreach.
  assert (Hfk : forall d, db_ok d -> forall r, In r (rights d) ->
                  exists t, In t (tokens d) /\ tr_name t = rr_name r).
  { intros d Hd r Hr. apply (ok_foreign d Hd) in Hr.
    apply in_map_iff in Hr. destruct Hr as [t [Ht Hin]]. exists t. auto. }
  pose proof (reachable_db_ok db Hreach) as Hok.
  split; [apply Hfk; assumption|].
  intros name Htrue.
  assert (Hin : In name (map tr_name (tokens db))).
  { destruct (in_dec string_dec name (map tr_name (tokens db))) as [H | H];
      [assumption|].
    unfold result_of in Htrue. rewrite (deleteToken_absent name db H) in Htrue.
    discriminate. }
  split; [| split].
  - unfold state_after. rewrite (deleteToken_present name db Hin). simpl.
    intros t Ht. apply filter_In in Ht. destruct Ht as [_ Hn].
    apply negb_true_iff, String.eqb_neq in Hn. assumption.
  - unfold state_after. rewrite (deleteToken_present name db Hin). simpl.
    intros r Hr. apply filter_In in Hr. destruct Hr as [_ Hn].
    apply negb_true_iff, String.eqb_neq in Hn. assumption.
  - apply Hfk. apply deleteToken_db_ok. assumption.
Qed.

Lemma reachable_rights_reference_tokens_witness :
  reachable expired_db
  /\ result_of (deleteToken "old") expired_db = Return true
  /\ (forall r, In r (rights (state_after (deleteToken "old") expired_db)) ->
                rr_name r <> "old").
Proof.
  assert (Hreach : reachable expired_db).
  { apply reach_generateToken, reach_new. }
  split; [exact Hreach|].
  split; [reflexivity|].
  destruct (reachable_rights_reference_tokens expired_db Hreach) as [_ H].
  destruct (H "old" eq_refl) as [_ [H2 _]]. exact H2.
Defined.

(** ** C7: deletion *)

(** C7.  [deleteToken] never throws.  It removes the [tokens] rows with the
    given name and returns true exactly when the name was present, which is
    exactly when [tokens] got shorter; when it returns true the [rights]
    rows of that name are removed too and all other rows are kept; when it
    returns false the store is unchanged.  Deleting again returns false and
    changes nothing. *)
Theorem deleteToken_spec (db : DatabaseSync) (name : string) :
  exists b,
    result_of (deleteToken name) db = Return b
    /\ (b = true <-> In name (map tr_name (tokens db)))
    /\ (b = true <->
        (List.length (tokens (state_after (deleteToken name) db))
         < List.length (tokens db))%nat)
    /\ tokens (state_after (deleteToken name) db)
       = filter (fun t => negb (tr_name t =? name)%string) (tokens db)
    /\ (forall t, In t (tokens (state_after (deleteToken name) db)) ->
                  tr_name t <> name)
    /\ (b = true ->
        rights (state_after (deleteToken name) db)
        = filter (fun r => negb (rr_name r =? name)%string) (rights db)
        /\ forall r, In r (rights (state_after (deleteToken name) db)) ->
                     rr_name r <> name)
    /\ (b = false -> state_after (deleteToken name) db = db)
    /\ result_of (deleteToken name) (state_after (deleteToken name) db)
       = Return false
    /\ state_after (deleteToken name) (state_after (deleteToken name) db)
       = state_after (deleteToken name) db.
Proof.
  assert (Hgone : forall l : list AuthDatabaseTokensRow,
            ~ In name (map tr_name
                         (filter (fun t => negb (tr_name t =? name)%string) l))).
  { intros l Hin. apply in_map_iff in Hin. destruct Hin as [t [Ht Hin]].
    apply filter_In in Hin. destruct Hin as [_ Hn].
    apply negb_true_iff, String.eqb_neq in Hn. contradiction. }
  assert (Hlen : (List.length (filter (fun t => negb (tr_name t =? name)%string)
                                 (tokens db)) < List.length (tokens db))%nat
                 <-> In name (map tr_name (tokens db))).
  { rewrite filter_length_lt, <- existsb_exists. apply existsb_name_In. }
  assert (Hkept : forall t,
            In t (filter (fun t => negb (tr_name t =? name)%string) (tokens db)) ->
            tr_name t <> name).
  { intros t Ht. apply filter_In in Ht. destruct Ht as [_ Hn].
    apply negb_true_iff, String.eqb_neq in Hn. assumption. }
  destruct (in_dec string_dec name (map tr_name (tokens db))) as [Hin | Habs].
  - exists true. unfold result_of, state_after.
    rewrite (deleteToken_present name db Hin). cbn [fst snd].
    rewrite deleteToken_absent by (simpl; apply Hgone). simpl.
    repeat split; auto; try tauto; try discriminate.
    intros r Hr. apply filter_In in Hr. destruct Hr as [_ Hn].
    apply negb_true_iff, String.eqb_neq in Hn. assumption.
  - exists false. unfold result_of, state_after.
    rewrite !(deleteToken_absent name db Habs). cbn [fst snd].
    rewrite !(deleteToken_absent name db Habs). cbn [fst snd].
    assert (E : filter (fun t => negb (tr_name t =? name)%string) (tokens db)
                = tokens db).
    { apply filter_all. intros t Ht. apply negb_true_iff, String.eqb_neq.
      intros E'. apply Habs. rewrite <- E'. apply in_map. assumption. }
    repeat split; auto; try discriminate.
    + intros H. exfalso. lia.
    + intros t Ht. rewrite <- E in Ht. apply Hkept. assumption.
Qed.

(** ** C8: presence of a name *)

Lemma hasToken_with_expirations (f : AuthDatabaseTokensRow -> Z) (name : string)
    (db : DatabaseSync) :
  result_of (hasToken name) (with_expirations f db)
  = result_of (hasToken name) db.
Proof.
  unfold result_of. rewrite !hasToken_eq. simpl. do 1 f_equal.
  induction (tokens db) as [|t l IH]; simpl; [reflexivity|].
  rewrite IH. reflexivity.
Qed.

(** C8 as stated fails.  A record stored with expiration -2^53 is expired
    and [hasToken] returns true for it, yet [getToken], [getOptionalToken]
    and [listTokens] throw a RangeError instead of returning it; an expired
    record named a-NUL-b with the right "read" comes back from [getToken]
    as a record named a with no rights. *)
Lemma expired_record_not_returned :
  (expired (mkTokensRow "past" (- 2 ^ 53) secret0) sample_now_ms
   /\ tokens (state_after (generateToken negative_unsafe_options entropy0) memory_db)
      = [mkTokensRow "past" (- 2 ^ 53) secret0]
   /\ result_of (verifyTokenValidity secret0 sample_now_ms)
        (state_after (generateToken negative_unsafe_options entropy0) memory_db)
      = Return false
   /\ result_of (hasToken "past")
        (state_after (generateToken negative_unsafe_options entropy0) memory_db)
      = Return true
   /\ result_of (getToken "past")
        (state_after (generateToken negative_unsafe_options entropy0) memory_db)
      = Throw (RangeError (- 2 ^ 53))
   /\ result_of (getOptionalToken "past")
        (state_after (generateToken negative_unsafe_options entropy0) memory_db)
      = Throw (RangeError (- 2 ^ 53))
   /\ result_of listTokens
        (state_after (generateToken negative_unsafe_options entropy0) memory_db)
      = Throw (RangeError (- 2 ^ 53)))
  /\ (expired (mkTokensRow nul_name 60 secret0) sample_now_ms
      /\ state_after (generateToken nul_options entropy0) memory_db
         = mkDb [mkTokensRow nul_name 60 secret0] [mkRightsRow nul_name "read"]
      /\ result_of (getToken nul_name)
           (state_after (generateToken nul_options entropy0) memory_db)
         = Return (mkSafeToken "a" 60 [])).
Proof.
  repeat split; try (vm_compute; reflexivity); vm_compute; discriminate.
Qed.

(** C8, amended.  [hasToken] returns a boolean, never throws and leaves the
    store as it is; it returns true exactly when a row of [tokens] has that
    name, whatever the expiration column holds.  On a store that satisfies
    the schema, a record that is expired fails [verifyTokenValidity] while
    [hasToken] still returns true for it; [getToken] and [getOptionalToken]
    still return it when its name has no NUL and its expiration is a safe
    integer, and [listTokens] still lists it when, in addition, every
    stored expiration is a safe integer.  No method sweeps it away: the six
    lookups and checks leave the store unchanged, [generateToken] keeps
    every row, and [deleteToken] of another name keeps it. *)
Theorem hasToken_spec (db : DatabaseSync) (name : string) :
  db_ok db ->
  (exists b,
      hasToken name db = (db, Return b)
      /\ (b = true <-> exists t, In t (tokens db) /\ tr_name t = name))
  /\ (forall f,
        result_of (hasToken name) (with_expirations f db)
        = result_of (hasToken name) db)
  /\ (forall t now_ms,
        In t (tokens db) -> tr_name t = name -> expired t now_ms ->
        result_of (verifyTokenValidity (tr_token t) now_ms) db = Return false
        /\ result_of (hasToken name) db = Return true
        /\ (row_readable t = true ->
            result_of (getToken name) db
            = Return (mkSafeToken (tr_name t) (tr_expiration t)
                                  (read_rights (tr_name t) db))
            /\ result_of (getOptionalToken name) db
               = Return (Some (mkSafeToken (tr_name t) (tr_expiration t)
                                           (read_rights (tr_name t) db)))
            /\ (forallb (fun t' => safe_integer (tr_expiration t')) (tokens db)
                = true ->
                exists l,
                  result_of listTokens db = Return l
                  /\ In (mkSafeToken (tr_name t) (tr_expiration t)
                                     (read_rights (tr_name t) db)) l)))
  /\ (forall t,
        In t (tokens db) ->
        (forall n, state_after (hasToken n) db = db)
        /\ (forall n, state_after (getToken n) db = db)
        /\ (forall n, state_after (getOptionalToken n) db = db)
        /\ state_after listTokens db = db
        /\ (forall s now_ms, state_after (verifyTokenValidity s now_ms) db = db)
        /\ (forall s r, state_after (verifyTokenRight s r) db = db)
        /\ (forall options entropy,
              In t (tokens (state_after (generateToken options entropy) db)))
        /\ (forall n, n <> tr_name t ->
              In t (tokens (state_after (deleteToken n) db)))).
Proof.
  intros Hok.
  assert (Hiff : existsb (fun t => (tr_name t =? name)%string) (tokens db) = true
                 <-> exists t, In t (tokens db) /\ tr_name t = name).
  { rewrite existsb_exists. split; intros [t [Hin E]]; exists t;
      (split; [assumption | apply String.eqb_eq; assumption]). }
  split; [| split; [| split]].
  - eexists. split; [apply hasToken_eq | exact Hiff].
  - intros f. apply hasToken_with_expirations.
  - intros t now_ms Hin Hname Hexp. subst name.
    split; [| split].
    + unfold result_of. rewrite (validity_expired db (tr_token t) now_ms t); auto.
    + unfold result_of. rewrite hasToken_eq. simpl. f_equal.
      apply Hiff. exists t. auto.
    + intros Hread. unfold row_readable in Hread.
      apply andb_true_iff in Hread. destruct Hread as [Hplain Hsafe].
      assert (Hst : safe_token db t
                    = mkSafeToken (tr_name t) (tr_expiration t)
                                  (read_rights (tr_name t) db)).
      { unfold safe_token. rewrite (cut_no_NUL _ Hplain). reflexivity. }
      split; [| split].
      * unfold result_of.
        rewrite getToken_eq, (find_name_unique db t Hok Hin), Hsafe, Hst.
        reflexivity.
      * unfold result_of.
        rewrite getOptionalToken_eq, (find_name_unique db t Hok Hin), Hsafe, Hst.
        reflexivity.
      * intros Hall. eexists. unfold result_of. rewrite listTokens_eq.
        rewrite find_absent.
        -- split; [reflexivity|]. rewrite <- Hst. apply in_map. assumption.
        -- intros x Hx. rewrite forallb_forall in Hall.
           rewrite (Hall x Hx). reflexivity.
  - intros t Hin.
    split; [| split; [| split; [| split; [| split; [| split; [| split]]]]]].
    + intros n. apply hasToken_state.
    + intros n. apply getToken_state.
    + intros n. apply getOptionalToken_state.
    + apply listTokens_state.
    + intros s now_ms. apply verifyTokenValidity_state.
    + intros s r. apply verifyTokenRight_state.
    + intros options entropy. apply generateToken_keeps_rows. assumption.
    + intros n Hn. unfold state_after. rewrite deleteToken_eq. simpl.
      apply filter_In. split; [assumption|].
      apply negb_true_iff, String.eqb_neq. congruence.
Qed.

Lemma hasToken_spec_witness :
  db_ok expired_db
  /\ expired (mkTokensRow "old" 60 secret0) sample_now_ms
  /\ row_readable (mkTokensRow "old" 60 secret0) = true
  /\ result_of (verifyTokenValidity secret0 sample_now_ms) expired_db
     = Return false
  /\ result_of (hasToken "old") expired_db = Return true
  /\ result_of (getToken "old") expired_db
     = Return (mkSafeToken "old" 60 ["read"; "write"]).
Proof.
  assert (Hexp : expired (mkTokensRow "old" 60 secret0) sample_now_ms).
  { expired_now. }
  split; [schema_ok|].
  split; [exact Hexp|].
  split; [reflexivity|].
  destruct (hasToken_spec expired_db "old") as [_ [_ [H _]]];
    [schema_ok|].
  destruct (H (mkTokensRow "old" 60 secret0) sample_now_ms)
    as [H1 [H2 H3]]; [simpl; auto | reflexivity | exact Hexp |].
  split; [exact H1|]. split; [exact H2|].
  destruct (H3 eq_refl) as [H4 _]. exact H4.
Defined.

(** ** C9: the secret *)

(** C9.  On a store that satisfies the schema, a secret that [generateToken]
    returns is the string auth- followed by the hexadecimal rendering of the
    32 bytes drawn from the random source: 64 hexadecimal characters, from
    which the 32 bytes are read back.  The secret is stored in the new row,
    it differs from the secret of every record that was there, and the
    secrets of the store after the call are pairwise distinct.  No lookup
    returns it: [getToken], [getOptionalToken] and [listTokens] give the same
    results whatever the [token] column holds. *)
Theorem generateToken_secret
    (options : AuthDatabaseGenerateTokenOptions) (entropy : nat -> Byte.byte)
    (db : DatabaseSync) (tok : AuthDatabaseToken) :
  db_ok db ->
  result_of (generateToken options entropy) db = Return tok ->
  (exists hex,
      tk_token tok = "auth-" ++ hex
      /\ hex = uint8ArrayToHex (getRandomValues entropy 32)
      /\ List.length (getRandomValues entropy 32) = 32%nat
      /\ String.length hex = 64%nat
      /\ all_hex hex = true
      /\ hexToUint8Array hex = Some (getRandomValues entropy 32))
  /\ In (mkTokensRow (opt_name options) (expiration_of options) (tk_token tok))
        (tokens (state_after (generateToken options entropy) db))
  /\ (forall t, In t (tokens db) -> tr_token t <> tk_token tok)
  /\ NoDup (map tr_token (tokens (state_after (generateToken options entropy) db)))
  /\ (forall g,
        (forall name,
            result_of (getToken name)
              (with_secrets g (state_after (generateToken options entropy) db))
            = result_of (getToken name)
                (state_after (generateToken options entropy) db))
        /\ (forall name,
              result_of (getOptionalToken name)
                (with_secrets g (state_after (generateToken options entropy) db))
              = result_of (getOptionalToken name)
                  (state_after (generateToken options entropy) db))
        /\ result_of listTokens
             (with_secrets g (state_after (generateToken options entropy) db))
           = result_of listTokens
               (state_after (generateToken options entropy) db)).
Proof.
  intros Hok Hret.
  pose proof (generateToken_db_ok options entropy db Hok) as Hok'.
  unfold result_of in Hret. unfold state_after in *.
  rewrite generateToken_eq in Hret, Hok' |- *.
  destruct (existsb _ (tokens db)) eqn:En; [discriminate|].
  destruct (existsb (fun t => (tr_token t =? secret_of entropy)%string) (tokens db))
    eqn:Et; [discriminate|].
  destruct (negb (int64_storable (expiration_of options))); [discriminate|].
  pose proof (for_of_rights_tokens (opt_name options) (opt_rights options)
                (mkDb (tokens db ++ [token_row options entropy]) (rights db))) as Htok.
  unfold state_after in Htok.
  destruct (for_of _ _ _) as [d' [[]|e]]; [| discriminate].
  simpl in Hret, Hok', Htok |- *. inversion Hret; subst tok. simpl tk_token.
  split; [| split; [| split; [| split]]].
  - exists (uint8ArrayToHex (getRandomValues entropy 32)).
    split; [reflexivity|]. split; [reflexivity|]. split; [reflexivity|].
    split; [rewrite uint8ArrayToHex_length; reflexivity|].
    split; [apply uint8ArrayToHex_all_hex | apply hexToUint8Array_uint8ArrayToHex].
  - rewrite Htok. apply in_app_iff. right. left. reflexivity.
  - intros t Hin E.
    apply (existsb_false_iff _ _ _ (existsb_token_In _ _)) in Et. apply Et.
    rewrite <- E. apply in_map. assumption.
  - apply Hok'.
  - intros g. apply lookups_of_safe_view, safe_view_with_secrets.
Qed.

Lemma generateToken_secret_witness :
  db_ok memory_db
  /\ result_of (generateToken test_options entropy0) memory_db
     = Return (mkToken "test" 0 secret0 ["read"])
  /\ exists hex,
       secret0 = "auth-" ++ hex
       /\ hex = uint8ArrayToHex (getRandomValues entropy0 32)
       /\ List.length (getRandomValues entropy0 32) = 32%nat
       /\ String.length hex = 64%nat
       /\ all_hex hex = true
       /\ hexToUint8Array hex = Some (getRandomValues entropy0 32).
Proof.
  split; [schema_ok|].
  split; [reflexivity|].
  destruct (generateToken_secret test_options entropy0 memory_db
              (mkToken "test" 0 secret0 ["read"])) as [H _].
  - schema_ok.
  - reflexivity.
  - exact H.
Defined.

(** ** C10: no validation of the name or of the expiration *)

(** C10 as stated fails.  With the negative expiration -2^53 the record is
    stored, [verifyTokenValidity] returns false and [hasToken] returns true,
    but [getToken] throws a RangeError instead of returning it; with the
    negative expiration -2^63 and the empty name the call itself throws, the
    INTEGER column refusing the value, and nothing is stored. *)
Lemma negative_expiration_not_returned :
  (result_of (generateToken negative_unsafe_options entropy0) memory_db
   = Return (mkToken "past" (- 2 ^ 53) secret0 ["read"])
   /\ result_of (verifyTokenValidity secret0 sample_now_ms)
        (state_after (generateToken negative_unsafe_options entropy0) memory_db)
      = Return false
   /\ result_of (hasToken "past")
        (state_after (generateToken negative_unsafe_options entropy0) memory_db)
      = Return true
   /\ result_of (getToken "past")
        (state_after (generateToken negative_unsafe_options entropy0) memory_db)
      = Throw (RangeError (- 2 ^ 53)))
  /\ (result_of (generateToken (mkOptions "" (Some (- 2 ^ 63)) ["read"]) entropy0)
        memory_db
      = Throw (SqliteError DATATYPE_tokens_expiration)
      /\ state_after (generateToken (mkOptions "" (Some (- 2 ^ 63)) ["read"]) entropy0)
           memory_db
         = memory_db).
Proof. repeat split; vm_compute; reflexivity. Qed.

(** C10, amended.  [generateToken] checks neither the name nor the
    expiration itself: on a store that satisfies the schema, whatever the
    name (the empty string included) and for every expiration that the
    INTEGER column stores, that is strictly between -2^63 and 2^63
    (negative values included), a call with a name not yet present, rights
    without repetition and a drawn secret not yet present returns the
    record and stores the row as given, and [hasToken] then returns true.
    [getToken] then returns it when the name and the rights have no NUL and
    the expiration is a safe integer.  When the stored expiration is
    negative and the clock is not before the epoch, [verifyTokenValidity]
    of the secret returns false. *)
Theorem generateToken_no_validation
    (options : AuthDatabaseGenerateTokenOptions) (entropy : nat -> Byte.byte)
    (db : DatabaseSync) (now_ms : Z) :
  db_ok db ->
  ~ In (opt_name options) (map tr_name (tokens db)) ->
  ~ In (secret_of entropy) (map tr_token (tokens db)) ->
  int64_storable (expiration_of options) = true ->
  NoDup (opt_rights options) ->
  result_of (generateToken options entropy) db
  = Return (mkToken (opt_name options) (expiration_of options)
                    (secret_of entropy) (opt_rights options))
  /\ In (mkTokensRow (opt_name options) (expiration_of options) (secret_of entropy))
        (tokens (state_after (generateToken options entropy) db))
  /\ result_of (hasToken (opt_name options))
       (state_after (generateToken options entropy) db) = Return true
  /\ (options_readable options = true ->
      exists rs,
        result_of (getToken (opt_name options))
          (state_after (generateToken options entropy) db)
        = Return (mkSafeToken (opt_name options) (expiration_of options) rs)
        /\ Permutation rs (opt_rights options))
  /\ (expiration_of options < 0 -> 0 <= now_ms ->
      result_of (verifyTokenValidity (secret_of entropy) now_ms)
        (state_after (generateToken options entropy) db) = Return false).
Proof.
  intros Hok Hname Hsecret Hint Hnd.
  pose proof (generateToken_db_ok options entropy db Hok) as Hok'.
  assert (Hrow : In (token_row options entropy)
                   (tokens (state_after (generateToken options entropy) db))).
  { unfold state_after. rewrite generateToken_success by assumption. simpl.
    apply in_app_iff. right. left. reflexivity. }
  split; [| split; [| split; [| split]]].
  - unfold result_of. rewrite generateToken_success by assumption. reflexivity.
  - exact Hrow.
  - unfold result_of. rewrite hasToken_eq. simpl. f_equal.
    apply existsb_name_In. apply (in_map tr_name) in Hrow. exact Hrow.
  - intros Hread. exists (index_order (opt_rights options)).
    split; [| apply index_order_perm].
    unfold result_of, getToken, bind.
    rewrite getToken_after_generateToken by assumption. reflexivity.
  - intros Hneg Hnow. unfold result_of.
    rewrite (validity_expired _ (secret_of entropy) now_ms (token_row options entropy));
      auto.
    unfold expired, unix_seconds. simpl.
    pose proof (Z.div_pos now_ms 1000 Hnow ltac:(lia)). lia.
Qed.

Lemma generateToken_no_validation_witness :
  db_ok memory_db
  /\ opt_name unvalidated_options = ""
  /\ expiration_of unvalidated_options < 0
  /\ int64_storable (expiration_of unvalidated_options) = true
  /\ 0 <= sample_now_ms
  /\ result_of (generateToken unvalidated_options entropy0) memory_db
     = Return (mkToken "" (-5) secret0 ["read"])
  /\ result_of (verifyTokenValidity secret0 sample_now_ms)
       (state_after (generateToken unvalidated_options entropy0) memory_db)
     = Return false.
Proof.
  split; [schema_ok|].
  split; [reflexivity|].
  split; [reflexivity|].
  split; [reflexivity|].
  split; [discriminate|].
  destruct (generateToken_no_validation unvalidated_options entropy0 memory_db
              sample_now_ms) as [H1 [_ [_ [_ H5]]]].
  - schema_ok.
  - simpl; tauto.
  - simpl; tauto.
  - reflexivity.
  - repeat constructor; simpl; tauto.
  - split; [exact H1|]. apply H5; [reflexivity | discriminate].
Defined.

(** * Further properties of the methods *)

(** ** Every outcome of [generateToken] *)

Lemma for_of_rights_shape (name : string) (rs : list string) (d : DatabaseSync) :
  In name (map tr_name (tokens d)) ->
  exists pre post,
    rs = (pre ++ post)%list
    /\ ((post = []
         /\ for_of rs (fun right => insertRightStatement_run name right ;;; ret tt) d
            = (mkDb (tokens d) (rights d ++ rights_rows name pre), Return tt))
        \/ (exists r post',
              post = r :: post'
              /\ In (mkRightsRow name r) (rights d ++ rights_rows name pre)
              /\ for_of rs (fun right => insertRightStatement_run name right ;;; ret tt) d
                 = (mkDb (tokens d) (rights d ++ rights_rows name pre),
                    Throw (SqliteError UNIQUE_rights_name_right)))).
Proof.
  revert d. induction rs as [|r rs IH]; intros d Hname.
  - exists [], []. split; [reflexivity|]. left. split; [reflexivity|].
    simpl. rewrite app_nil_r. destruct d; reflexivity.
  - apply existsb_name_In in Hname as En.
    assert (Hstep :
      for_of (r :: rs) (fun right => insertRightStatement_run name right ;;; ret tt) d
      = if existsb (rights_row_eqb (mkRightsRow name r)) (rights d) then
          (d, Throw (SqliteError UNIQUE_rights_name_right))
        else
          for_of rs (fun right => insertRightStatement_run name right ;;; ret tt)
            (mkDb (tokens d) (rights d ++ [mkRightsRow name r]))).
    { simpl for_of. unfold bind at 1. rewrite insertRight_step, En.
      destruct (existsb _ (rights d)); reflexivity. }
    rewrite Hstep. clear Hstep.
    destruct (existsb (rights_row_eqb (mkRightsRow name r)) (rights d)) eqn:Er.
    + exists [], (r :: rs). split; [reflexivity|]. right.
      exists r, rs. simpl. rewrite app_nil_r.
      split; [reflexivity|]. split; [apply existsb_row_In; assumption|].
      destruct d; reflexivity.
    + destruct (IH (mkDb (tokens d) (rights d ++ [mkRightsRow name r])) Hname)
        as [pre [post [Hrs Hcase]]].
      exists (r :: pre), post. split; [simpl; congruence|].
      simpl tokens in Hcase. simpl rights in Hcase.
      rewrite <- !app_assoc in Hcase. simpl in Hcase. simpl rights_rows.
      destruct Hcase as [[Hp Hfor] | [r' [post' [Hp [Hin Hfor]]]]].
      * left. split; [assumption|]. rewrite Hfor. reflexivity.
      * right. exists r', post'. split; [assumption|]. split; [assumption|].
        rewrite Hfor. reflexivity.
Qed.

Lemma generateToken_cases (options : AuthDatabaseGenerateTokenOptions)
    (entropy : nat -> Byte.byte) (db : DatabaseSync) :
  (In (opt_name options) (map tr_name (tokens db))
   /\ generateToken options entropy db
      = (db, Throw (DuplicateNameError (opt_name options))))
  \/ (~ In (opt_name options) (map tr_name (tokens db))
      /\ In (secret_of entropy) (map tr_token (tokens db))
      /\ generateToken options entropy db
         = (db, Throw (SqliteError UNIQUE_tokens_token)))
  \/ (~ In (opt_name options) (map tr_name (tokens db))
      /\ ~ In (secret_of entropy) (map tr_token (tokens db))
      /\ int64_storable (expiration_of options) = false
      /\ generateToken options entropy db
         = (db, Throw (SqliteError DATATYPE_tokens_expiration)))
  \/ (~ In (opt_name options) (map tr_name (tokens db))
      /\ ~ In (secret_of entropy) (map tr_token (tokens db))
      /\ int64_storable (expiration_of options) = true
      /\ exists pre post,
           opt_rights options = (pre ++ post)%list
           /\ ((post = []
                /\ generateToken options entropy db
                   = (mkDb (tokens db ++ [token_row options entropy])
                           (rights db ++ rights_rows (opt_name options) pre),
                      Return (mkToken (opt_name options) (expiration_of options)
                                (secret_of entropy) (opt_rights options))))
               \/ (exists r post',
                     post = r :: post'
                     /\ In (mkRightsRow (opt_name options) r)
                           (rights db ++ rights_rows (opt_name options) pre)
                     /\ generateToken options entropy db
                        = (mkDb (tokens db ++ [token_row options entropy])
                                (rights db ++ rights_rows (opt_name options) pre),
                           Throw (SqliteError UNIQUE_rights_name_right))))).
Proof.
  rewrite generateToken_eq.
  destruct (existsb _ (tokens db)) eqn:En.
  { left. split; [apply existsb_name_In; assumption | reflexivity]. }
  apply (existsb_false_iff _ _ _ (existsb_name_In _ _)) in En.
  destruct (existsb (fun t => (tr_token t =? secret_of entropy)%string) (tokens db))
    eqn:Et.
  { right. left. split; [assumption|].
    split; [apply existsb_token_In; assumption | reflexivity]. }
  apply (existsb_false_iff _ _ _ (existsb_token_In _ _)) in Et.
  destruct (int64_storable (expiration_of options)) eqn:Es; cbn [negb].
  2:{ right. right. left. auto. }
  right. right. right.
  split; [assumption|]. split; [assumption|]. split; [reflexivity|].
  destruct (for_of_rights_shape (opt_name options) (opt_rights options)
              (mkDb (tokens db ++ [token_row options entropy]) (rights db)))
    as [pre [post [Hrs Hcase]]].
  { simpl. rewrite map_app. apply in_app_iff. right. left. reflexivity. }
  exists pre, post. split; [assumption|]. simpl in Hcase.
  destruct Hcase as [[Hp Hfor] | [r [post' [Hp [Hin Hfor]]]]].
  - left. split; [assumption|]. rewrite Hfor. reflexivity.
  - right. exists r, post'. split; [assumption|]. split; [assumption|].
    rewrite Hfor. reflexivity.
Qed.

(** What a returning call has done. *)
Lemma generateToken_returns (options : AuthDatabaseGenerateTokenOptions)
    (entropy : nat -> Byte.byte) (db : DatabaseSync) (tok : AuthDatabaseToken) :
  result_of (generateToken options entropy) db = Return tok ->
  ~ In (opt_name options) (map tr_name (tokens db))
  /\ ~ In (secret_of entropy) (map tr_token (tokens db))
  /\ tok = mkToken (opt_name options) (expiration_of options)
                   (secret_of entropy) (opt_rights options)
  /\ state_after (generateToken options entropy) db
     = mkDb (tokens db ++ [token_row options entropy])
            (rights db ++ rights_rows (opt_name options) (opt_rights options)).
Proof.
  unfold result_of, state_after. intros Hret.
  destruct (generateToken_cases options entropy db)
    as [[_ E] | [[_ [_ E]] | [[_ [_ [_ E]]]
        | [Hn [Hs [_ [pre [post [Hrs Hcase]]]]]]]]];
    try (rewrite E in Hret; discriminate).
  destruct Hcase as [[Hp E] | [r [post' [_ [_ E]]]]];
    [| rewrite E in Hret; discriminate].
  subst post. rewrite app_nil_r in Hrs. subst pre.
  rewrite E in Hret |- *. simpl in *. inversion Hret. auto.
Qed.


(** The store a call leaves: the one it found, or that one with the new
    row and some of the new rights. *)
Lemma generateToken_state_shape (options : AuthDatabaseGenerateTokenOptions)
    (entropy : nat -> Byte.byte) (db : DatabaseSync) :
  state_after (generateToken options entropy) db = db
  \/ (~ In (opt_name options) (map tr_name (tokens db))
      /\ ~ In (secret_of entropy) (map tr_token (tokens db))
      /\ exists pre,
           state_after (generateToken options entropy) db
           = mkDb (tokens db ++ [token_row options entropy])
                  (rights db ++ rights_rows (opt_name options) pre)).
Proof.
  unfold state_after.
  destruct (generateToken_cases options entropy db)
    as [[_ E] | [[_ [_ E]] | [[_ [_ [_ E]]]
        | [Hn [Hs [_ [pre [post [Hrs Hcase]]]]]]]]];
    try (rewrite E; left; reflexivity).
  right. split; [assumption|]. split; [assumption|]. exists pre.
  destruct Hcase as [[_ E] | [r [post' [_ [_ E]]]]]; rewrite E; reflexivity.
Qed.

(** ** Rows of other names *)

Lemma find_app_last {A} (p : A -> bool) (l : list A) (x : A) :
  p x = false -> find p (l ++ [x]) = find p l.
Proof.
  intros Hx. induction l as [|y l IH]; simpl.
  - rewrite Hx. reflexivity.
  - destruct (p y); [reflexivity | assumption].
Qed.

Lemma find_name_after_filter (n m : string) (l : list AuthDatabaseTokensRow) :
  m <> n ->
  find (fun t => (tr_name t =? m)%string)
       (filter (fun t => negb (tr_name t =? n)%string) l)
  = find (fun t => (tr_name t =? m)%string) l.
Proof.
  intros Hmn. induction l as [|t l IH]; simpl; [reflexivity|].
  destruct (String.eqb_spec (tr_name t) n) as [En|En]; simpl.
  - destruct (String.eqb_spec (tr_name t) m) as [Em|Em]; [congruence | assumption].
  - rewrite IH. reflexivity.
Qed.

Lemma rights_of_other_name (n m : string) (pre : list string)
    (T T' : list AuthDatabaseTokensRow) (R : list AuthDatabaseRightsRow) :
  m <> n ->
  rights_of m (mkDb T (R ++ rights_rows n pre)) = rights_of m (mkDb T' R).
Proof.
  intros Hmn. unfold rights_of. simpl. rewrite filter_app, map_app.
  rewrite (filter_none _ (rights_rows n pre)); [apply app_nil_r|].
  intros x Hx. unfold rights_rows in Hx. apply in_map_iff in Hx.
  destruct Hx as [r [<- _]]. simpl. apply String.eqb_neq. congruence.
Qed.

Lemma rights_of_after_deleteToken (n m : string) (db : DatabaseSync) :
  m <> n ->
  rights_of m (state_after (deleteToken n) db) = rights_of m db.
Proof.
  intros Hmn. unfold state_after.
  destruct (in_dec string_dec n (map tr_name (tokens db))) as [Hin | Habs].
  - rewrite (deleteToken_present n db Hin). unfold rights_of. simpl. f_equal.
    induction (rights db) as [|r R IH]; simpl; [reflexivity|].
    destruct (String.eqb_spec (rr_name r) n) as [En|En]; simpl.
    + destruct (String.eqb_spec (rr_name r) m) as [Em|Em]; [congruence | assumption].
    + rewrite IH. reflexivity.
  - rewrite (deleteToken_absent n db Habs). reflexivity.
Qed.

Lemma tokens_after_deleteToken (n : string) (db : DatabaseSync) :
  tokens (state_after (deleteToken n) db)
  = filter (fun t => negb (tr_name t =? n)%string) (tokens db).
Proof. unfold state_after. rewrite deleteToken_eq. reflexivity. Qed.

Lemma hasToken_frame (m : string) (db db' : DatabaseSync) :
  find (fun t => (tr_name t =? m)%string) (tokens db')
  = find (fun t => (tr_name t =? m)%string) (tokens db) ->
  result_of (hasToken m) db' = result_of (hasToken m) db.
Proof.
  intros Hfind. unfold result_of. rewrite !hasToken_eq. cbn [snd].
  rewrite <- !(defined_find_existsb tr_name), Hfind. reflexivity.
Qed.

(** The lookups by a name read the first row of that name and the rights
    stored under the name as it is read back. *)
Lemma lookups_by_name_frame (m : string) (db db' : DatabaseSync) :
  find (fun t => (tr_name t =? m)%string) (tokens db')
  = find (fun t => (tr_name t =? m)%string) (tokens db) ->
  rights_of (cut_at_NUL m) db' = rights_of (cut_at_NUL m) db ->
  result_of (getOptionalToken m) db' = result_of (getOptionalToken m) db
  /\ result_of (getToken m) db' = result_of (getToken m) db.
Proof.
  intros Hfind Hrights. unfold result_of.
  rewrite !getOptionalToken_eq, !getToken_eq. cbn [snd]. rewrite Hfind.
  destruct (find _ (tokens db)) as [t|] eqn:E; [| auto].
  apply find_some in E. destruct E as [_ E]. apply String.eqb_eq in E.
  unfold safe_token, read_rights. rewrite E, Hrights. auto.
Qed.

(** ** Presence, lookups and listing *)

(** X1.  The three lookups by name agree on every store.  When no row has
    the name, [hasToken] returns false, [getOptionalToken] returns
    [undefined] and [getToken] throws the does-not-exist error, leaving the
    store as it is.  When a row has the name, [hasToken] returns true; if
    the stored expiration is a safe integer, [getOptionalToken] and
    [getToken] return one and the same record, whose name is the given name
    up to its first NUL; otherwise both throw the RangeError of that
    expiration. *)
Theorem lookups_agree_on_presence (db : DatabaseSync) (name : string) :
  (result_of (hasToken name) db = Return false
   /\ result_of (getOptionalToken name) db = Return None
   /\ result_of (getToken name) db = Throw (NotFoundError name)
   /\ state_after (getToken name) db = db)
  \/ (result_of (hasToken name) db = Return true
      /\ exists t,
           In t (tokens db) /\ tr_name t = name
           /\ ((safe_integer (tr_expiration t) = true
                /\ exists st,
                     st_name st = cut_at_NUL name
                     /\ st_expiration st = tr_expiration t
                     /\ result_of (getOptionalToken name) db = Return (Some st)
                     /\ result_of (getToken name) db = Return st)
               \/ (safe_integer (tr_expiration t) = false
                   /\ result_of (getOptionalToken name) db
                      = Throw (RangeError (tr_expiration t))
                   /\ result_of (getToken name) db
                      = Throw (RangeError (tr_expiration t))))).
Proof.
  unfold result_of, state_after.
  rewrite hasToken_eq, getOptionalToken_eq, getToken_eq. cbn [fst snd].
  rewrite <- (defined_find_existsb tr_name).
  destruct (find _ (tokens db)) as [t|] eqn:E; cbn [option_map defined].
  - right. split; [reflexivity|]. exists t.
    apply find_some in E. destruct E as [Hin E]. apply String.eqb_eq in E.
    split; [assumption|]. split; [assumption|].
    destruct (safe_integer (tr_expiration t)).
    + left. split; [reflexivity|]. exists (safe_token db t).
      unfold safe_token. cbn [st_name st_expiration]. rewrite E. auto.
    + right. auto.
  - left. auto.
Qed.

(** ** Failures of [generateToken] *)




(** ** Operations on one name leave the other names alone *)

(** X4.  Whether it returns or throws, [generateToken] does not change what
    [hasToken] returns for any other name, nor what [getOptionalToken] and
    [getToken] return for a name that also differs from the call's name
    when read up to its first NUL (the rights of a record are looked up
    under its name as read back). *)
Theorem generateToken_other_names
    (options : AuthDatabaseGenerateTokenOptions) (entropy : nat -> Byte.byte)
    (db : DatabaseSync) (m : string) :
  m <> opt_name options ->
  result_of (hasToken m) (state_after (generateToken options entropy) db)
  = result_of (hasToken m) db
  /\ (cut_at_NUL m <> opt_name options ->
      result_of (getOptionalToken m)
        (state_after (generateToken options entropy) db)
      = result_of (getOptionalToken m) db
      /\ result_of (getToken m) (state_after (generateToken options entropy) db)
         = result_of (getToken m) db).
Proof.
  intros Hm.
  destruct (generateToken_state_shape options entropy db)
    as [E | [_ [_ [pre E]]]]; rewrite E; [auto|].
  assert (Hfind :
    find (fun t => (tr_name t =? m)%string)
         (tokens (mkDb (tokens db ++ [token_row options entropy])
                       (rights db ++ rights_rows (opt_name options) pre)))
    = find (fun t => (tr_name t =? m)%string) (tokens db)).
  { cbn [tokens]. apply find_app_last.
    change (tr_name (token_row options entropy)) with (opt_name options).
    apply String.eqb_neq. congruence. }
  split.
  - apply hasToken_frame. assumption.
  - intros Hcut. apply lookups_by_name_frame; [assumption|].
    exact (rights_of_other_name (opt_name options) (cut_at_NUL m) pre _
             (tokens db) (rights db) Hcut).
Qed.

Lemma generateToken_other_names_witness :
  "test" <> opt_name expired_options
  /\ cut_at_NUL "test" <> opt_name expired_options
  /\ result_of (getToken "test")
       (state_after (generateToken expired_options entropy1) test_db)
     = Return (mkSafeToken "test" 0 ["read"]).
Proof.
  split; [discriminate|]. split; [discriminate|].
  destruct (generateToken_other_names expired_options entropy1 test_db "test")
    as [_ H]; [discriminate|].
  destruct H as [_ H]; [discriminate|].
  rewrite H. reflexivity.
Defined.

(** X5.  [deleteToken] of a name does not change what [hasToken] returns
    for any other name, nor what [getOptionalToken] and [getToken] return
    for a name that also differs from the deleted one when read up to its
    first NUL. *)
Theorem deleteToken_other_names (db : DatabaseSync) (n m : string) :
  m <> n ->
  result_of (hasToken m) (state_after (deleteToken n) db)
  = result_of (hasToken m) db
  /\ (cut_at_NUL m <> n ->
      result_of (getOptionalToken m) (state_after (deleteToken n) db)
      = result_of (getOptionalToken m) db
      /\ result_of (getToken m) (state_after (deleteToken n) db)
         = result_of (getToken m) db).
Proof.
  intros Hm.
  assert (Hfind :
    find (fun t => (tr_name t =? m)%string) (tokens (state_after (deleteToken n) db))
    = find (fun t => (tr_name t =? m)%string) (tokens db)).
  { rewrite tokens_after_deleteToken. apply find_name_after_filter. assumption. }
  split.
  - apply hasToken_frame. assumption.
  - intros Hcut. apply lookups_by_name_frame; [assumption|].
    apply rights_of_after_deleteToken. assumption.
Qed.

Lemma deleteToken_other_names_witness :
  "test" <> "old"
  /\ cut_at_NUL "test" <> "old"
  /\ result_of (getToken "test")
       (state_after (deleteToken "old")
          (state_after (generateToken expired_options entropy1) test_db))
     = Return (mkSafeToken "test" 0 ["read"]).
Proof.
  split; [discriminate|]. split; [discriminate|].
  destruct (deleteToken_other_names
              (state_after (generateToken expired_options entropy1) test_db)
              "old" "test") as [_ H]; [discriminate|].
  destruct H as [_ H]; [discriminate|].
  rewrite H. reflexivity.
Defined.

(** ** Secrets of other records *)

Lemma existsb_snoc {A} (p : A -> bool) (l : list A) (x : A) :
  p x = false -> existsb p (l ++ [x]) = existsb p l.
Proof.
  intros Hx. rewrite existsb_app. simpl. rewrite Hx. rewrite !orb_false_r.
  reflexivity.
Qed.

(** X6.  Issuing a token never changes what the store answers for a secret
    it already holds: whether [generateToken] returns or throws,
    [verifyTokenRight] and [verifyTokenValidity] of a secret present before
    the call return what they returned before. *)
Theorem generateToken_keeps_existing_secrets
    (options : AuthDatabaseGenerateTokenOptions) (entropy : nat -> Byte.byte)
    (db : DatabaseSync) (secret : string) :
  In secret (map tr_token (tokens db)) ->
  (forall right,
      result_of (verifyTokenRight secret right)
        (state_after (generateToken options entropy) db)
      = result_of (verifyTokenRight secret right) db)
  /\ (forall now_ms,
        result_of (verifyTokenValidity secret now_ms)
          (state_after (generateToken options entropy) db)
        = result_of (verifyTokenValidity secret now_ms) db).
Proof.
  intros Hsecret.
  destruct (generateToken_state_shape options entropy db)
    as [E | [Hn [Hs [pre E]]]]; rewrite E; [auto|].
  assert (Hrow : (tr_token (token_row options entropy) =? secret)%string = false).
  { change (tr_token (token_row options entropy)) with (secret_of entropy).
    apply String.eqb_neq. intros Heq. apply Hs. rewrite Heq. assumption. }
  unfold result_of. split.
  - intros right. rewrite !verifyTokenRight_eq. cbn [tokens rights snd].
    rewrite find_app_last by assumption.
    destruct (find _ (tokens db)) as [t|] eqn:Ef; [| reflexivity].
    apply find_some in Ef. destruct Ef as [Hin _].
    f_equal. rewrite existsb_app.
    assert (Hnew : existsb (rights_row_eqb (mkRightsRow (tr_name t) right))
                     (rights_rows (opt_name options) pre) = false).
    { apply (existsb_false_iff _ _ _ (existsb_row_In _ _)).
      intros Hr. unfold rights_rows in Hr. apply in_map_iff in Hr.
      destruct Hr as [x [Hx _]]. inversion Hx as [[Hname Hright]].
      apply Hn. rewrite Hname. apply in_map. assumption. }
    rewrite Hnew. apply orb_false_r.
  - intros now_ms. rewrite !verifyTokenValidity_eq. cbn [tokens rights snd].
    f_equal. apply existsb_snoc. rewrite Hrow. reflexivity.
Qed.

Lemma generateToken_keeps_existing_secrets_witness :
  In secret0 (map tr_token (tokens test_db))
  /\ result_of (verifyTokenRight secret0 "read")
       (state_after (generateToken expired_options entropy1) test_db)
     = Return true.
Proof.
  split; [simpl; auto|].
  destruct (generateToken_keeps_existing_secrets expired_options entropy1 test_db
              secret0) as [H _]; [simpl; auto|].
  rewrite H. reflexivity.
Defined.

(** X7.  On a store that satisfies the schema, deleting one record does not
    change what the store answers for the secret of a record of another
    name. *)
Theorem deleteToken_keeps_other_secrets (db : DatabaseSync) (n : string)
    (t : AuthDatabaseTokensRow) :
  db_ok db -> In t (tokens db) -> tr_name t <> n ->
  (forall right,
      result_of (verifyTokenRight (tr_token t) right)
        (state_after (deleteToken n) db)
      = result_of (verifyTokenRight (tr_token t) right) db)
  /\ (forall now_ms,
        result_of (verifyTokenValidity (tr_token t) now_ms)
          (state_after (deleteToken n) db)
        = result_of (verifyTokenValidity (tr_token t) now_ms) db).
Proof.
  intros Hok Hin Hn.
  pose proof (deleteToken_db_ok n db Hok) as Hok'.
  assert (Hin' : In t (tokens (state_after (deleteToken n) db))).
  { rewrite tokens_after_deleteToken. apply filter_In. split; [assumption|].
    apply negb_true_iff, String.eqb_neq. assumption. }
  unfold result_of. split.
  - intros right. rewrite !verifyTokenRight_eq.
    rewrite (find_token_unique _ t Hok' Hin'), (find_token_unique _ t Hok Hin).
    cbn [snd]. f_equal. apply eq_true_iff_eq.
    rewrite !existsb_row_In, <- !In_rights_of.
    rewrite rights_of_after_deleteToken by assumption. reflexivity.
  - intros now_ms. rewrite !verifyTokenValidity_eq. cbn [snd]. f_equal.
    apply eq_true_iff_eq. rewrite !existsb_exists. split.
    + intros [t' [Ht' Hv]]. exists t'. split; [| assumption].
      rewrite tokens_after_deleteToken in Ht'. apply filter_In in Ht'. tauto.
    + intros [t' [Ht' Hv]]. exists t'. split; [| assumption].
      assert (t' = t).
      { apply (NoDup_key_unique tr_token (tokens db)); try assumption.
        - apply Hok.
        - apply andb_true_iff in Hv. destruct Hv as [Hv _].
          apply String.eqb_eq in Hv. assumption. }
      subst t'. assumption.
Qed.

Lemma deleteToken_keeps_other_secrets_witness :
  db_ok (state_after (generateToken expired_options entropy1) test_db)
  /\ result_of (verifyTokenRight secret0 "read")
       (state_after (deleteToken "old")
          (state_after (generateToken expired_options entropy1) test_db))
     = Return true.
Proof.
  split; [schema_ok|].
  destruct (deleteToken_keeps_other_secrets
              (state_after (generateToken expired_options entropy1) test_db)
              "old" (mkTokensRow "test" 0 secret0)) as [H _].
  - schema_ok.
  - simpl; auto.
  - discriminate.
  - etransitivity; [exact (H "read") | reflexivity].
Defined.

(** ** Deletion revokes *)

(** X8.  On a store that satisfies the schema, after [deleteToken] of the
    name of a record, the secret of that record is refused:
    [verifyTokenValidity] and [verifyTokenRight] return false for it at
    every time and for every right, and the lookups by that name report
    absence. *)
Theorem deleteToken_revokes_secret (db : DatabaseSync)
    (t : AuthDatabaseTokensRow) :
  db_ok db -> In t (tokens db) ->
  result_of (deleteToken (tr_name t)) db = Return true
  /\ (forall now_ms,
        result_of (verifyTokenValidity (tr_token t) now_ms)
          (state_after (deleteToken (tr_name t)) db) = Return false)
  /\ (forall right,
        result_of (verifyTokenRight (tr_token t) right)
          (state_after (deleteToken (tr_name t)) db) = Return false)
  /\ result_of (hasToken (tr_name t)) (state_after (deleteToken (tr_name t)) db)
     = Return false
  /\ result_of (getToken (tr_name t)) (state_after (deleteToken (tr_name t)) db)
     = Throw (NotFoundError (tr_name t)).
Proof.
  intros Hok Hin.
  assert (Hpresent : In (tr_name t) (map tr_name (tokens db))).
  { apply in_map. assumption. }
  assert (Hsecret : ~ In (tr_token t)
            (map tr_token (tokens (state_after (deleteToken (tr_name t)) db)))).
  { rewrite tokens_after_deleteToken. intros H. apply in_map_iff in H.
    destruct H as [t' [Htok Ht']]. apply filter_In in Ht'. destruct Ht' as [Ht' Hne].
    apply negb_true_iff, String.eqb_neq in Hne. apply Hne.
    f_equal. apply (NoDup_key_unique tr_token (tokens db)); try assumption.
    apply Hok. }
  assert (Hname : ~ In (tr_name t)
            (map tr_name (tokens (state_after (deleteToken (tr_name t)) db)))).
  { rewrite tokens_after_deleteToken. intros H. apply in_map_iff in H.
    destruct H as [t' [Hnm Ht']]. apply filter_In in Ht'. destruct Ht' as [_ Hne].
    apply negb_true_iff, String.eqb_neq in Hne. contradiction. }
  split; [| split; [| split; [| split]]].
  - unfold result_of. rewrite (deleteToken_present _ db Hpresent). reflexivity.
  - intros now_ms. unfold result_of. rewrite validity_absent by assumption.
    reflexivity.
  - intros right. unfold result_of.
    rewrite verifyTokenRight_eq, find_token_absent by assumption. reflexivity.
  - unfold result_of. rewrite hasToken_eq. simpl. f_equal.
    apply (existsb_false_iff _ _ _ (existsb_name_In _ _)). assumption.
  - unfold result_of. rewrite getToken_eq, find_name_absent by assumption.
    reflexivity.
Qed.

Lemma deleteToken_revokes_secret_witness :
  db_ok test_db
  /\ In (mkTokensRow "test" 0 secret0) (tokens test_db)
  /\ result_of (verifyTokenValidity secret0 sample_now_ms)
       (state_after (deleteToken "test") test_db) = Return false
  /\ result_of (verifyTokenRight secret0 "read")
       (state_after (deleteToken "test") test_db) = Return false.
Proof.
  assert (Hin : In (mkTokensRow "test" 0 secret0) (tokens test_db)).
  { simpl; auto. }
  split; [schema_ok|]. split; [exact Hin|].
  destruct (deleteToken_revokes_secret test_db (mkTokensRow "test" 0 secret0))
    as [_ [H1 [H2 _]]]; [schema_ok | exact Hin |].
  split; [apply (H1 sample_now_ms) | apply (H2 "read")].
Defined.

(** X9.  Creation followed by deletion is a round trip: on a store that
    satisfies the schema, after a [generateToken] that succeeds,
    [deleteToken] of the same name returns true and leaves exactly the
    store that was there before the creation. *)
Theorem generateToken_then_deleteToken
    (options : AuthDatabaseGenerateTokenOptions) (entropy : nat -> Byte.byte)
    (db : DatabaseSync) (tok : AuthDatabaseToken) :
  db_ok db ->
  result_of (generateToken options entropy) db = Return tok ->
  deleteToken (opt_name options) (state_after (generateToken options entropy) db)
  = (db, Return true).
Proof.
  intros Hok Hret.
  destruct (generateToken_returns options entropy db tok Hret)
    as [Hn [_ [_ E]]].
  rewrite E. rewrite deleteToken_present.
  - simpl. rewrite !filter_app. simpl. rewrite String.eqb_refl. simpl.
    rewrite (filter_all _ (tokens db)), (filter_all _ (rights db)).
    + rewrite (filter_none _ (rights_rows _ _)).
      * rewrite !app_nil_r. destruct db; reflexivity.
      * intros r Hr. unfold rights_rows in Hr. apply in_map_iff in Hr.
        destruct Hr as [x [<- _]]. simpl. rewrite String.eqb_refl. reflexivity.
    + intros r Hr. apply negb_true_iff, String.eqb_neq. intros Heq.
      apply Hn. rewrite <- Heq. apply (ok_foreign db Hok). assumption.
    + intros t Ht. apply negb_true_iff, String.eqb_neq. intros Heq.
      apply Hn. rewrite <- Heq. apply in_map. assumption.
  - simpl. rewrite map_app. apply in_app_iff. right. left. reflexivity.
Qed.

Lemma generateToken_then_deleteToken_witness :
  db_ok test_db
  /\ result_of (generateToken expired_options entropy1) test_db
     = Return (mkToken "old" 60 (secret_of entropy1) ["read"; "write"])
  /\ deleteToken "old" (state_after (generateToken expired_options entropy1) test_db)
     = (test_db, Return true).
Proof.
  split; [schema_ok|]. split; [reflexivity|].
  apply (generateToken_then_deleteToken expired_options entropy1 test_db
           (mkToken "old" 60 (secret_of entropy1) ["read"; "write"])).
  - schema_ok.
  - reflexivity.
Defined.

(** ** The secret a call returns *)

(** X10.  On a store that satisfies the schema, the secret that
    [generateToken] returns carries exactly the rights of the call:
    [verifyTokenRight] of it returns true for a right of the supplied list
    and false for every other string (for every right when the list is
    empty). *)
Theorem generated_secret_rights
    (options : AuthDatabaseGenerateTokenOptions) (entropy : nat -> Byte.byte)
    (db : DatabaseSync) (tok : AuthDatabaseToken) :
  db_ok db ->
  result_of (generateToken options entropy) db = Return tok ->
  forall right,
    (In right (opt_rights options) ->
     result_of (verifyTokenRight (tk_token tok) right)
       (state_after (generateToken options entropy) db) = Return true)
    /\ (~ In right (opt_rights options) ->
        result_of (verifyTokenRight (tk_token tok) right)
          (state_after (generateToken options entropy) db) = Return false).
Proof.
  intros Hok Hret right.
  pose proof (generateToken_db_ok options entropy db Hok) as Hok'.
  destruct (generateToken_returns options entropy db tok Hret)
    as [Hn [_ [Htok E]]].
  subst tok. cbn [tk_token].
  remember (state_after (generateToken options entropy) db) as db' eqn:Hdb'.
  clear Hdb'. subst db'.
  assert (Hrow : In (token_row options entropy)
                   (tokens (mkDb (tokens db ++ [token_row options entropy])
                      (rights db ++ rights_rows (opt_name options) (opt_rights options))))).
  { simpl. apply in_app_iff. right. left. reflexivity. }
  unfold result_of. rewrite verifyTokenRight_eq.
  change (secret_of entropy) with (tr_token (token_row options entropy)).
  rewrite (find_token_unique _ _ Hok' Hrow). cbn [snd rights tr_name token_row].
  split; intros Hr; f_equal.
  - apply existsb_row_In, in_app_iff. right.
    unfold rights_rows. apply in_map. assumption.
  - apply (existsb_false_iff _ _ _ (existsb_row_In _ _)).
    intros Hin. apply in_app_iff in Hin. destruct Hin as [Hin | Hin].
    + apply (no_rights_without_token _ db Hok Hn right). assumption.
    + unfold rights_rows in Hin. apply in_map_iff in Hin.
      destruct Hin as [x [Hx Hin]]. inversion Hx. subst. contradiction.
Qed.

Lemma generated_secret_rights_witness :
  db_ok test_db
  /\ result_of (generateToken expired_options entropy1) test_db
     = Return (mkToken "old" 60 (secret_of entropy1) ["read"; "write"])
  /\ result_of (verifyTokenRight (secret_of entropy1) "write")
       (state_after (generateToken expired_options entropy1) test_db)
     = Return true
  /\ result_of (verifyTokenRight (secret_of entropy1) "admin")
       (state_after (generateToken expired_options entropy1) test_db)
     = Return false.
Proof.
  split; [schema_ok|]. split; [reflexivity|].
  pose proof (generated_secret_rights expired_options entropy1 test_db
                (mkToken "old" 60 (secret_of entropy1) ["read"; "write"])) as H.
  split.
  - apply (H ltac:(schema_ok) eq_refl "write"). simpl; auto.
  - apply (H ltac:(schema_ok) eq_refl "admin"). simpl; intuition discriminate.
Defined.

(** X11.  On a store that satisfies the schema, the secret that
    [generateToken] returns is valid exactly as long as the call says: when
    the stored expiration is 0 (in particular when the call gives none) it
    is valid at every time; otherwise [verifyTokenValidity] returns true
    exactly while the clock, in milliseconds, is below 1000 times the
    expiration. *)
Theorem generated_secret_lifetime
    (options : AuthDatabaseGenerateTokenOptions) (entropy : nat -> Byte.byte)
    (db : DatabaseSync) (tok : AuthDatabaseToken) :
  db_ok db ->
  result_of (generateToken options entropy) db = Return tok ->
  (opt_expiration options = None -> tk_expiration tok = 0)
  /\ forall now_ms,
       result_of (verifyTokenValidity (tk_token tok) now_ms)
         (state_after (generateToken options entropy) db) = Return true
       <-> (tk_expiration tok = 0 \/ now_ms < 1000 * tk_expiration tok).
Proof.
  intros Hok Hret.
  pose proof (generateToken_db_ok options entropy db Hok) as Hok'.
  destruct (generateToken_returns options entropy db tok Hret)
    as [_ [_ [Htok E]]].
  subst tok. cbn [tk_token tk_expiration].
  split.
  { intros Hnone. unfold expiration_of. rewrite Hnone. reflexivity. }
  intros now_ms.
  assert (Hrow : In (token_row options entropy)
                   (tokens (state_after (generateToken options entropy) db))).
  { rewrite E. simpl. apply in_app_iff. right. left. reflexivity. }
  assert (Hdiv : expiration_of options > unix_seconds now_ms
                 <-> now_ms < 1000 * expiration_of options).
  { unfold unix_seconds.
    pose proof (Z.div_mod now_ms 1000 ltac:(lia)).
    pose proof (Z.mod_pos_bound now_ms 1000 ltac:(lia)). lia. }
  unfold result_of. rewrite verifyTokenValidity_eq. cbn [snd].
  split.
  - intros H. inversion H as [Hb]. apply validity_true_iff in Hb.
    destruct Hb as [t [Hin [Hsec Hv]]].
    assert (t = token_row options entropy).
    { apply (NoDup_key_unique tr_token
               (tokens (state_after (generateToken options entropy) db)));
        try assumption. apply Hok'. }
    subst t. cbn [tr_expiration token_row] in Hv. tauto.
  - intros Hv. f_equal. apply validity_true_iff.
    exists (token_row options entropy). split; [assumption|].
    split; [reflexivity|]. cbn [tr_expiration token_row]. tauto.
Qed.

Lemma generated_secret_lifetime_witness :
  db_ok test_db
  /\ result_of (generateToken expired_options entropy1) test_db
     = Return (mkToken "old" 60 (secret_of entropy1) ["read"; "write"])
  /\ (result_of (verifyTokenValidity (secret_of entropy1) 59999)
        (state_after (generateToken expired_options entropy1) test_db)
      = Return true
      <-> (60 = 0 \/ 59999 < 1000 * 60)).
Proof.
  split; [schema_ok|]. split; [reflexivity|].
  destruct (generated_secret_lifetime expired_options entropy1 test_db
              (mkToken "old" 60 (secret_of entropy1) ["read"; "write"]))
    as [_ H]; [schema_ok | reflexivity |].
  apply (H 59999).
Defined.

(** X12.  Validity only ever ends: on every store, a secret that
    [verifyTokenValidity] accepts at some time is accepted at every earlier
    time. *)
Theorem verifyTokenValidity_earlier (db : DatabaseSync) (secret : string)
    (earlier later : Z) :
  earlier <= later ->
  result_of (verifyTokenValidity secret later) db = Return true ->
  result_of (verifyTokenValidity secret earlier) db = Return true.
Proof.
  unfold result_of. rewrite !verifyTokenValidity_eq. cbn [snd].
  intros Hle H. inversion H as [Hb]. rewrite Hb. f_equal.
  apply validity_true_iff in Hb. apply validity_true_iff.
  destruct Hb as [t [Hin [Hsec Hv]]]. exists t.
  split; [assumption|]. split; [assumption|].
  assert (unix_seconds earlier <= unix_seconds later).
  { unfold unix_seconds. apply Z.div_le_mono; lia. }
  lia.
Qed.

Lemma verifyTokenValidity_earlier_witness :
  0 <= 59999
  /\ result_of (verifyTokenValidity secret0 59999) expired_db = Return true
  /\ result_of (verifyTokenValidity secret0 0) expired_db = Return true.
Proof.
  split; [lia|]. split; [reflexivity|].
  apply (verifyTokenValidity_earlier expired_db secret0 0 59999); [lia | reflexivity].
Defined.

Lemma append_same_prefix (prefix s s' : string) :
  prefix ++ s = prefix ++ s' -> s = s'.
Proof.
  induction prefix as [|c prefix IH]; simpl; intros H; [assumption|].
  injection H as H. apply IH. assumption.
Qed.

(** X13.  The secret determines the 32 random bytes it was rendered from:
    two draws give the same secret exactly when they agree on all 32
    bytes. *)
Theorem secret_of_injective (entropy entropy' : nat -> Byte.byte) :
  secret_of entropy = secret_of entropy'
  <-> forall i, (i < 32)%nat -> entropy i = entropy' i.
Proof.
  unfold secret_of, getRandomValues. split.
  - intros H.
    assert (Hhex : uint8ArrayToHex (map entropy (seq 0 32))
                   = uint8ArrayToHex (map entropy' (seq 0 32))).
    { apply (append_same_prefix "auth-"). assumption. }
    apply (f_equal hexToUint8Array) in Hhex.
    rewrite !hexToUint8Array_uint8ArrayToHex in Hhex.
    assert (Hmap : map entropy (seq 0 32) = map entropy' (seq 0 32))
      by congruence.
    pose proof (proj1 map_ext_in_iff Hmap) as Hall.
    intros i Hi. apply Hall. apply in_seq. lia.
  - intros H. do 2 f_equal. apply map_ext_in. intros i Hi.
    apply in_seq in Hi. apply H. lia.
Qed.

(** ** Stores that read back as stored *)

Lemma db_readable_rows (db : DatabaseSync) :
  db_readable db = true ->
  (forall t, In t (tokens db) ->
             has_no_NUL (tr_name t) = true
             /\ safe_integer (tr_expiration t) = true)
  /\ (forall r, In r (rights db) -> has_no_NUL (rr_right r) = true).
Proof.
  unfold db_readable. rewrite andb_true_iff, !forallb_forall.
  intros [Ht Hr]. split; [| assumption].
  intros t Hin. specialize (Ht t Hin). unfold row_readable in Ht.
  apply andb_true_iff in Ht. assumption.
Qed.

Lemma read_rights_readable (name : string) (db : DatabaseSync) :
  db_readable db = true ->
  read_rights name db = index_order (rights_of name db).
Proof.
  intros Hread. destruct (db_readable_rows db Hread) as [_ Hr].
  unfold read_rights. apply map_cut_no_NUL, index_order_no_NUL.
  apply forallb_forall. intros x Hx. unfold rights_of in Hx.
  apply in_map_iff in Hx. destruct Hx as [r [<- Hin]].
  apply filter_In in Hin. apply Hr. tauto.
Qed.

Lemma safe_token_readable (db : DatabaseSync) (t : AuthDatabaseTokensRow) :
  db_readable db = true -> In t (tokens db) ->
  safe_token db t
  = mkSafeToken (tr_name t) (tr_expiration t)
                (index_order (rights_of (tr_name t) db)).
Proof.
  intros Hread Hin. destruct (db_readable_rows db Hread) as [Ht _].
  destruct (Ht t Hin) as [Hplain _].
  unfold safe_token. rewrite (cut_no_NUL _ Hplain), read_rights_readable
    by assumption. reflexivity.
Qed.

Lemma listTokens_readable (db : DatabaseSync) :
  db_readable db = true ->
  listTokens db = (db, Return (map (safe_token db) (tokens db))).
Proof.
  intros Hread. destruct (db_readable_rows db Hread) as [Ht _].
  rewrite listTokens_eq, find_absent; [reflexivity|].
  intros t Hin. destruct (Ht t Hin) as [_ Hsafe]. rewrite Hsafe. reflexivity.
Qed.

Lemma index_order_In (x : string) (l : list string) :
  In x (index_order l) <-> In x l.
Proof.
  split; apply Permutation_in;
    [apply index_order_perm | apply Permutation_sym, index_order_perm].
Qed.

(** ** Listing *)

(** X14.  On a store that satisfies the schema and reads back as stored
    (no NUL in a name or right, every expiration a safe integer),
    [listTokens] returns one entry per record, no two with the same name;
    an entry is in the list exactly when [getOptionalToken] of its name
    returns it, and a name is in the list exactly when [hasToken] returns
    true for it. *)
Theorem listTokens_matches_lookups (db : DatabaseSync) :
  db_ok db ->
  db_readable db = true ->
  exists l,
    result_of listTokens db = Return l
    /\ List.length l = List.length (tokens db)
    /\ NoDup (map st_name l)
    /\ (forall st,
          In st l
          <-> result_of (getOptionalToken (st_name st)) db = Return (Some st))
    /\ (forall name,
          result_of (hasToken name) db = Return true
          <-> In name (map st_name l)).
Proof.
  intros Hok Hread. exists (map (safe_token db) (tokens db)).
  destruct (db_readable_rows db Hread) as [Hrows _].
  assert (Hnames : map st_name (map (safe_token db) (tokens db))
                   = map tr_name (tokens db)).
  { rewrite map_map. apply map_ext_in. intros t Hin.
    rewrite (safe_token_readable db t Hread Hin). reflexivity. }
  unfold result_of. rewrite (listTokens_readable db Hread). cbn [snd].
  split; [reflexivity|]. split; [apply length_map|].
  split; [rewrite Hnames; apply Hok|]. split.
  - intros st. rewrite getOptionalToken_eq. cbn [snd]. split.
    + intros Hin. apply in_map_iff in Hin. destruct Hin as [t [<- Hin]].
      destruct (Hrows t Hin) as [Hplain Hsafe].
      assert (Hname : st_name (safe_token db t) = tr_name t).
      { rewrite (safe_token_readable db t Hread Hin). reflexivity. }
      rewrite Hname, (find_name_unique db t Hok Hin), Hsafe. reflexivity.
    + intros H. destruct (find _ (tokens db)) as [t|] eqn:Ef; [| discriminate].
      destruct (safe_integer (tr_expiration t)); [| discriminate].
      inversion H. apply in_map. apply find_some in Ef. tauto.
  - intros name. rewrite hasToken_eq, Hnames. cbn [snd]. split.
    + intros H. inversion H as [Hb]. apply existsb_name_In. assumption.
    + intros H. f_equal. apply existsb_name_In. assumption.
Qed.

Lemma listTokens_matches_lookups_witness :
  db_ok expired_db
  /\ db_readable expired_db = true
  /\ exists l,
       result_of listTokens expired_db = Return l
       /\ List.length l = 1%nat.
Proof.
  split; [schema_ok|]. split; [reflexivity|].
  destruct (listTokens_matches_lookups expired_db) as [l [H1 [H2 _]]];
    [schema_ok | reflexivity |].
  exists l. split; [exact H1 | exact H2].
Defined.

Lemma NoDup_rights_of (name : string) (db : DatabaseSync) :
  NoDup (rights db) -> NoDup (rights_of name db).
Proof.
  unfold rights_of. induction (rights db) as [|r R IH]; simpl; intros Hnd.
  - constructor.
  - inversion Hnd as [|? ? Hr HR]; subst.
    destruct (String.eqb_spec (rr_name r) name) as [En|En]; simpl; [| auto].
    constructor; [| auto].
    intros Hin. apply in_map_iff in Hin. destruct Hin as [r' [Hright Hin]].
    apply filter_In in Hin. destruct Hin as [Hin Hn']. apply String.eqb_eq in Hn'.
    apply Hr. destruct r, r'; simpl in *; subst. assumption.
Qed.

(** X15.  On a store that satisfies the schema and reads back as stored,
    the rights list of a record that [getOptionalToken] returns has no
    repeated right, holds exactly the rights stored for that name, and
    lists them in the byte order of the primary-key index, whatever the
    order they were supplied in. *)
Theorem lookup_rights_distinct (db : DatabaseSync) (name : string)
    (st : AuthDatabaseSafeToken) :
  db_ok db ->
  db_readable db = true ->
  result_of (getOptionalToken name) db = Return (Some st) ->
  NoDup (st_rights st)
  /\ (forall right,
        In right (st_rights st) <-> In (mkRightsRow name right) (rights db))
  /\ st_rights st = index_order (rights_of name db).
Proof.
  intros Hok Hread. unfold result_of. rewrite getOptionalToken_eq. cbn [snd].
  destruct (find _ (tokens db)) as [t|] eqn:Ef; [| discriminate].
  destruct (safe_integer (tr_expiration t)); [| discriminate].
  intros H. inversion H. subst st.
  apply find_some in Ef. destruct Ef as [Hin En]. apply String.eqb_eq in En.
  rewrite (safe_token_readable db t Hread Hin). cbn [st_rights]. rewrite En.
  split; [| split].
  - apply (Permutation_NoDup (Permutation_sym (index_order_perm _))).
    apply NoDup_rights_of. apply Hok.
  - intros right. rewrite index_order_In. apply In_rights_of.
  - reflexivity.
Qed.

Lemma lookup_rights_distinct_witness :
  db_ok (state_after (generateToken unsorted_options entropy1) test_db)
  /\ db_readable (state_after (generateToken unsorted_options entropy1) test_db)
     = true
  /\ result_of (getOptionalToken "svc")
       (state_after (generateToken unsorted_options entropy1) test_db)
     = Return (Some (mkSafeToken "svc" 0 ["read"; "write"]))
  /\ NoDup ["read"; "write"].
Proof.
  split; [schema_ok|]. split; [reflexivity|]. split; [reflexivity|].
  destruct (lookup_rights_distinct
              (state_after (generateToken unsorted_options entropy1) test_db)
              "svc" (mkSafeToken "svc" 0 ["read"; "write"])) as [H _];
    [schema_ok | reflexivity | reflexivity |].
  exact H.
Defined.

(** X16.  On a store that satisfies the schema and reads back as stored, a
    [generateToken] that returns, called with a name and rights without NUL
    and a safe-integer expiration, adds one entry to what [listTokens]
    returns: the name, the expiration and the rights of the call in index
    order; every other entry is as it was. *)
Theorem listTokens_after_generateToken
    (options : AuthDatabaseGenerateTokenOptions) (entropy : nat -> Byte.byte)
    (db : DatabaseSync) (tok : AuthDatabaseToken) :
  db_ok db ->
  db_readable db = true ->
  options_readable options = true ->
  result_of (generateToken options entropy) db = Return tok ->
  exists l,
    result_of listTokens db = Return l
    /\ result_of listTokens (state_after (generateToken options entropy) db)
       = Return (l ++ [mkSafeToken (tk_name tok) (tk_expiration tok)
                                   (index_order (tk_rights tok))])%list.
Proof.
  intros Hok Hread Hopts Hret.
  destruct (generateToken_returns options entropy db tok Hret)
    as [Hn [_ [Htok E]]].
  destruct (options_readable_parts options Hopts) as [Hplain [Hsafe Hrights]].
  destruct (db_readable_rows db Hread) as [Hrows _].
  subst tok. cbn [tk_name tk_expiration tk_rights].
  exists (map (safe_token db) (tokens db)).
  unfold result_of. rewrite (listTokens_readable db Hread), E. cbn [snd].
  split; [reflexivity|].
  rewrite listTokens_eq. cbn [snd tokens].
  rewrite find_absent.
  2:{ intros t Hin. apply in_app_iff in Hin. destruct Hin as [Hin | [<- | []]].
      - destruct (Hrows t Hin) as [_ Hs]. rewrite Hs. reflexivity.
      - change (tr_expiration (token_row options entropy))
          with (expiration_of options). rewrite Hsafe. reflexivity. }
  f_equal. rewrite map_app. f_equal.
  - apply map_ext_in. intros t Ht. destruct (Hrows t Ht) as [Hp _].
    unfold safe_token, read_rights. rewrite (cut_no_NUL _ Hp). do 3 f_equal.
    assert (Hne : tr_name t <> opt_name options).
    { intros Heq. apply Hn. rewrite <- Heq. apply in_map. assumption. }
    exact (rights_of_other_name (opt_name options) (tr_name t) _ _
             (tokens db) (rights db) Hne).
  - cbn [map]. f_equal. unfold safe_token, read_rights.
    change (tr_expiration (token_row options entropy))
      with (expiration_of options).
    change (tr_name (token_row options entropy)) with (opt_name options).
    rewrite (cut_no_NUL _ Hplain), rights_of_rights_rows.
    change (rights_of (opt_name options)
              (mkDb (tokens db ++ [token_row options entropy]) (rights db)))
      with (rights_of (opt_name options) db).
    rewrite rights_of_absent by assumption. cbn [app].
    rewrite map_cut_no_NUL by (apply index_order_no_NUL; assumption).
    reflexivity.
Qed.

Lemma listTokens_after_generateToken_witness :
  db_ok test_db
  /\ db_readable test_db = true
  /\ options_readable unsorted_options = true
  /\ result_of (generateToken unsorted_options entropy1) test_db
     = Return (mkToken "svc" 0 (secret_of entropy1) ["write"; "read"])
  /\ result_of listTokens
       (state_after (generateToken unsorted_options entropy1) test_db)
     = Return [mkSafeToken "test" 0 ["read"];
               mkSafeToken "svc" 0 ["read"; "write"]].
Proof.
  split; [schema_ok|]. split; [reflexivity|]. split; [reflexivity|].
  split; [reflexivity|].
  destruct (listTokens_after_generateToken unsorted_options entropy1 test_db
              (mkToken "svc" 0 (secret_of entropy1) ["write"; "read"]))
    as [l [H1 H2]]; [schema_ok | reflexivity | reflexivity | reflexivity |].
  etransitivity; [exact H2|].
  assert (Hl : l = [mkSafeToken "test" 0 ["read"]]).
  { assert (H : Return l = Return [mkSafeToken "test" 0 ["read"]])
      by (rewrite <- H1; reflexivity).
    inversion H. reflexivity. }
  rewrite Hl. reflexivity.
Defined.

(** X17.  On a store that reads back as stored, what [listTokens] returns
    after [deleteToken] of a name is what it returned before without the
    entry of that name: the other entries keep their order, expiration and
    rights. *)
Theorem listTokens_after_deleteToken (db : DatabaseSync) (name : string) :
  db_readable db = true ->
  exists l,
    result_of listTokens db = Return l
    /\ result_of listTokens (state_after (deleteToken name) db)
       = Return (filter (fun st => negb (st_name st =? name)%string) l).
Proof.
  intros Hread. destruct (db_readable_rows db Hread) as [Hrows _].
  exists (map (safe_token db) (tokens db)).
  unfold result_of. rewrite (listTokens_readable db Hread). cbn [snd].
  split; [reflexivity|].
  rewrite listTokens_eq. cbn [snd]. rewrite tokens_after_deleteToken.
  rewrite find_absent.
  2:{ intros t Hin. apply filter_In in Hin. destruct Hin as [Hin _].
      destruct (Hrows t Hin) as [_ Hs]. rewrite Hs. reflexivity. }
  f_equal.
  pose proof (fun m => rights_of_after_deleteToken name m db) as Hr.
  remember (state_after (deleteToken name) db) as db' eqn:Hdb'. clear Hdb'.
  assert (Hplain : forall t, In t (tokens db) -> has_no_NUL (tr_name t) = true).
  { intros t Hin. apply (Hrows t Hin). }
  clear Hrows Hread.
  induction (tokens db) as [|t l IH]; [reflexivity|].
  assert (Hp : cut_at_NUL (tr_name t) = tr_name t).
  { apply cut_no_NUL, Hplain. left. reflexivity. }
  cbn [filter map]. unfold safe_token at 2. cbn [st_name]. rewrite Hp.
  destruct (String.eqb_spec (tr_name t) name) as [En|En]; cbn [negb].
  - apply IH. intros t' Ht'. apply Hplain. right. assumption.
  - cbn [map]. f_equal.
    + unfold safe_token, read_rights. rewrite Hp, (Hr _ En). reflexivity.
    + apply IH. intros t' Ht'. apply Hplain. right. assumption.
Qed.

Lemma listTokens_after_deleteToken_witness :
  db_readable (state_after (generateToken unsorted_options entropy1) test_db)
  = true
  /\ result_of listTokens
       (state_after (deleteToken "test")
          (state_after (generateToken unsorted_options entropy1) test_db))
     = Return [mkSafeToken "svc" 0 ["read"; "write"]].
Proof.
  split; [reflexivity|].
  destruct (listTokens_after_deleteToken
              (state_after (generateToken unsorted_options entropy1) test_db)
              "test") as [l [H1 H2]]; [reflexivity|].
  etransitivity; [exact H2|].
  assert (Hl : l = [mkSafeToken "test" 0 ["read"];
                    mkSafeToken "svc" 0 ["read"; "write"]]).
  { assert (H : Return l = Return [mkSafeToken "test" 0 ["read"];
                                   mkSafeToken "svc" 0 ["read"; "write"]])
      by (rewrite <- H1; reflexivity).
    inversion H. reflexivity. }
  rewrite Hl. reflexivity.
Defined.

(** ** What holds in every reachable store *)

Lemma secret_of_format (entropy : nat -> Byte.byte) :
  secret_format (secret_of entropy).
Proof.
  exists (uint8ArrayToHex (getRandomValues entropy 32)).
  split; [reflexivity|].
  split; [rewrite uint8ArrayToHex_length; reflexivity|].
  apply uint8ArrayToHex_all_hex.
Qed.

Lemma reachable_secret_format (db : DatabaseSync) :
  reachable db -> forall t, In t (tokens db) -> secret_format (tr_token t).
Proof.
  induction 1 as [| db options entropy Hreach IH | db name Hreach IH
                  | db name Hreach IH | db name Hreach IH | db name Hreach IH
                  | db Hreach IH | db token now_ms Hreach IH
                  | db token right Hreach IH]; intros t Ht.
  - destruct Ht.
  - destruct (generateToken_state_shape options entropy db)
      as [E | [_ [_ [pre E]]]]; rewrite E in Ht; [auto|].
    simpl in Ht. apply in_app_iff in Ht. destruct Ht as [Ht | [<- | []]]; [auto|].
    apply secret_of_format.
  - rewrite tokens_after_deleteToken in Ht. apply filter_In in Ht.
    apply IH. tauto.
  - rewrite hasToken_state in Ht. auto.
  - rewrite getToken_state in Ht. auto.
  - rewrite getOptionalToken_state in Ht. auto.
  - rewrite listTokens_state in Ht. auto.
  - rewrite verifyTokenValidity_state in Ht. auto.
  - rewrite verifyTokenRight_state in Ht. auto.
Qed.

(** X18.  In every state a store reaches from the empty one through its
    methods, every stored secret has the format of a generated one (auth-
    and 64 hexadecimal digits), so a string of any other shape is refused by
    [verifyTokenValidity] at every time and by [verifyTokenRight] for every
    right. *)
Theorem reachable_secrets_wellformed (db : DatabaseSync) :
  reachable db ->
  (forall t, In t (tokens db) -> secret_format (tr_token t))
  /\ (forall s,
        ~ secret_format s ->
        (forall now_ms,
            result_of (verifyTokenValidity s now_ms) db = Return false)
        /\ (forall right,
              result_of (verifyTokenRight s right) db = Return false)).
Proof.
  intros Hreach.
  pose proof (reachable_secret_format db Hreach) as Hfmt.
  split; [exact Hfmt|].
  intros s Hs.
  assert (Habs : ~ In s (map tr_token (tokens db))).
  { intros Hin. apply in_map_iff in Hin. destruct Hin as [t [<- Hin]].
    apply Hs, Hfmt. assumption. }
  unfold result_of. split.
  - intros now_ms. rewrite validity_absent by assumption. reflexivity.
  - intros right. rewrite verifyTokenRight_eq, find_token_absent by assumption.
    reflexivity.
Qed.

Lemma reachable_secrets_wellformed_witness :
  reachable test_db
  /\ ~ secret_format "invalid"
  /\ result_of (verifyTokenValidity "invalid" sample_now_ms) test_db
     = Return false.
Proof.
  assert (Hreach : reachable test_db) by apply reach_generateToken, reach_new.
  assert (Hbad : ~ secret_format "invalid").
  { intros [hex [H _]]. simpl in H. discriminate H. }
  split; [exact Hreach|]. split; [exact Hbad|].
  destruct (reachable_secrets_wellformed test_db Hreach) as [_ H].
  destruct (H "invalid" Hbad) as [H1 _]. apply (H1 sample_now_ms).
Defined.

(** X19.  In every state a store reaches from the empty one through its
    methods, a name belongs to at most one record, a secret belongs to at
    most one record, and no (name, right) pair is stored twice. *)
Theorem reachable_keys_unique (db : DatabaseSync) :
  reachable db ->
  (forall t t', In t (tokens db) -> In t' (tokens db) ->
                tr_name t = tr_name t' -> t = t')
  /\ (forall t t', In t (tokens db) -> In t' (tokens db) ->
                   tr_token t = tr_token t' -> t = t')
  /\ NoDup (rights db).
Proof.
  intros Hreach. destruct (reachable_db_ok db Hreach) as [Hn Hs Hr _].
  split; [| split].
  - intros t t'. apply NoDup_key_unique. assumption.
  - intros t t'. apply NoDup_key_unique. assumption.
  - assumption.
Qed.

Lemma reachable_keys_unique_witness :
  reachable (state_after (generateToken expired_options entropy1) test_db)
  /\ NoDup (rights (state_after (generateToken expired_options entropy1) test_db)).
Proof.
  assert (Hreach : reachable
            (state_after (generateToken expired_options entropy1) test_db))
    by apply reach_generateToken, reach_generateToken, reach_new.
  split; [exact Hreach|].
  destruct (reachable_keys_unique _ Hreach) as [_ [_ H]]. exact H.
Defined.

(** ** When [generateToken] returns *)





(** ** After a creation that failed part-way *)

Lemma deleteToken_undoes_insertions (db : DatabaseSync)
    (row : AuthDatabaseTokensRow) (pre : list string) :
  db_ok db ->
  ~ In (tr_name row) (map tr_name (tokens db)) ->
  deleteToken (tr_name row)
    (mkDb (tokens db ++ [row]) (rights db ++ rights_rows (tr_name row) pre))
  = (db, Return true).
Proof.
  intros Hok Hn. rewrite deleteToken_present.
  - cbn [tokens rights]. rewrite !filter_app. cbn [filter].
    rewrite String.eqb_refl. cbn [negb].
    rewrite (filter_all _ (tokens db)), (filter_all _ (rights db)).
    + rewrite (filter_none _ (rights_rows _ _)).
      * rewrite !app_nil_r. destruct db; reflexivity.
      * intros r Hr. unfold rights_rows in Hr. apply in_map_iff in Hr.
        destruct Hr as [x [<- _]]. cbn [rr_name]. rewrite String.eqb_refl.
        reflexivity.
    + intros r Hr. apply negb_true_iff, String.eqb_neq. intros Heq.
      apply Hn. rewrite <- Heq. apply (ok_foreign db Hok). assumption.
    + intros t Ht. apply negb_true_iff, String.eqb_neq. intros Heq.
      apply Hn. rewrite <- Heq. apply in_map. assumption.
  - cbn [tokens]. rewrite map_app. apply in_app_iff. right. left. reflexivity.
Qed.

(** X21.  On a store that satisfies the schema, when [generateToken] throws
    the primary-key error of [rights], the name is taken: [hasToken] of it
    returns true and every further [generateToken] with that name throws the
    already-exists error; [deleteToken] of the name returns true and leaves
    exactly the store that was there before the failed call. *)
Theorem generateToken_failed_rights_recovery
    (options : AuthDatabaseGenerateTokenOptions) (entropy : nat -> Byte.byte)
    (db : DatabaseSync) :
  db_ok db ->
  result_of (generateToken options entropy) db
  = Throw (SqliteError UNIQUE_rights_name_right) ->
  result_of (hasToken (opt_name options))
    (state_after (generateToken options entropy) db) = Return true
  /\ (forall options' entropy',
        opt_name options' = opt_name options ->
        result_of (generateToken options' entropy')
          (state_after (generateToken options entropy) db)
        = Throw (DuplicateNameError (opt_name options)))
  /\ deleteToken (opt_name options)
       (state_after (generateToken options entropy) db)
     = (db, Return true).
Proof.
  intros Hok Hthrow. unfold result_of, state_after in *.
  destruct (generateToken_cases options entropy db)
    as [[_ E] | [[_ [_ E]] | [[_ [_ [_ E]]]
        | [Hn [_ [_ [pre [post [_ Hcase]]]]]]]]];
    try (rewrite E in Hthrow; discriminate).
  destruct Hcase as [[_ E] | [r [post' [_ [_ E]]]]];
    [rewrite E in Hthrow; discriminate|].
  rewrite E. cbn [fst].
  assert (Hpresent :
    existsb (fun t => (tr_name t =? opt_name options)%string)
      (tokens db ++ [token_row options entropy]) = true).
  { apply existsb_name_In. rewrite map_app. apply in_app_iff.
    right. left. reflexivity. }
  split; [| split].
  - rewrite hasToken_eq. cbn [snd tokens]. rewrite Hpresent. reflexivity.
  - intros options' entropy' Hsame. rewrite generateToken_eq, Hsame.
    cbn [tokens]. rewrite Hpresent. reflexivity.
  - apply (deleteToken_undoes_insertions db (token_row options entropy) pre);
      assumption.
Qed.

Lemma generateToken_failed_rights_recovery_witness :
  db_ok memory_db
  /\ result_of (generateToken repeated_options entropy0) memory_db
     = Throw (SqliteError UNIQUE_rights_name_right)
  /\ result_of (generateToken test_options entropy1)
       (state_after (generateToken repeated_options entropy0) memory_db)
     = Throw (DuplicateNameError "test")
  /\ deleteToken "test"
       (state_after (generateToken repeated_options entropy0) memory_db)
     = (memory_db, Return true).
Proof.
  split; [schema_ok|]. split; [reflexivity|].
  destruct (generateToken_failed_rights_recovery repeated_options entropy0
              memory_db) as [_ [H2 H3]]; [schema_ok | reflexivity |].
  split; [apply (H2 test_options entropy1); reflexivity | exact H3].
Defined.
